(** * Content-filter recommendations: a shallow embedding of
      [simple_reccomendations.py] and the properties of its grouping and
      fallback algorithm.

    The Python module groups the rows of a query result into a
    dictionary-in-dictionary tree, draws a fixed number of recommendations
    for every attribute permutation (with two randomised fallbacks), and
    prepares the rows and the statement of a bulk insert.

    Modelling choices:
    - a row (a psycopg2 tuple) is a list of field values;
    - a Python [dict] is an association list in insertion order with
      pairwise distinct keys, because [dict.items()] iterates in that order;
    - Python integers that the caller chooses ([index_list] entries,
      [current_level], [recommendation_amount]) are [Z]; positions that the
      code itself computes from lengths are [nat];
    - exceptions are an explicit [result];
    - the module-global random generator is an explicit source of draws that
      is threaded through the recommender. *)

From Stdlib Require Import ZArith Lia.
From stdpp Require Import base numbers strings list.

(** ** Python values, rows and exceptions *)

Inductive value : Type :=
  | VInt (z : Z)
  | VStr (s : string)
  | VNone.

#[global] Instance value_eq_dec : EqDecision value.
Proof. solve_decision. Defined.

(** A row of the query result: field 0 is the product id, the others are
    attributes. *)
Abbreviation record := (list value).

(** One recommendation: the list of rows chosen for one permutation. *)
Abbreviation slot := (list record).

Inductive error : Type :=
  | IndexError
  | ValueError.

Inductive result (A : Type) : Type :=
  | Ok (a : A)
  | Err (e : error).
Arguments Ok {A} a.
Arguments Err {A} e.

#[global] Instance result_ret : MRet result := λ A a, Ok a.
#[global] Instance result_bind : MBind result := λ A B f m,
  match m with
  | Ok a => f a
  | Err e => Err e
  end.

(** [seq[i]] for a Python integer [i]: negative indices count from the
    end, anything outside [-len, len) raises IndexError. *)
Definition py_index {A : Type} (seq : list A) (i : Z) : result A :=
  let j := if (i <? 0)%Z then (i + Z.of_nat (length seq))%Z else i in
  if (j <? 0)%Z then Err IndexError
  else match seq !! Z.to_nat j with
       | Some x => Ok x
       | None => Err IndexError
       end.

(** [i] is a position that [seq[i]] accepts. *)
Definition valid_index {A : Type} (seq : list A) (i : Z) : Prop :=
  (- Z.of_nat (length seq) ≤ i < Z.of_nat (length seq))%Z.

(** ** The grouped tree *)

(** The value built by the grouper and consumed by the recommender: a
    [dict] ([Node], keys in insertion order) or a [list] of rows
    ([Leaf]); [isinstance(data, dict)] tells them apart. *)
#[warnings="-register-all"]
Inductive tree : Type :=
  | Leaf (data : list record)
  | Node (items : list (value * tree)).

(** All rows stored in the leaves, in iteration order. *)
Fixpoint tree_records (t : tree) : list record :=
  match t with
  | Leaf data => data
  | Node items => mjoin ((λ kv, tree_records kv.2) <$> items)
  end.

(** Number of leaf lists, that is, of attribute permutations. *)
Fixpoint leaf_count (t : tree) : nat :=
  match t with
  | Leaf _ => 1
  | Node items => sum_list ((λ kv, leaf_count kv.2) <$> items)
  end.

(** Every leaf list holds at least one row. *)
#[warnings="-register-all"]
Inductive leaves_nonempty : tree → Prop :=
  | leaves_nonempty_leaf data :
      data ≠ [] → leaves_nonempty (Leaf data)
  | leaves_nonempty_node items :
      Forall (λ kv, leaves_nonempty kv.2) items → leaves_nonempty (Node items).

(** [d[k]] for the first (the only) binding of [k]. *)
Fixpoint dict_get {V : Type} (d : list (value * V)) (k : value) : option V :=
  match d with
  | [] => None
  | (k', v) :: d' => if decide (k' = k) then Some v else dict_get d' k
  end.

(** The subtree reached by following the keys [ks] from the root. *)
Fixpoint subtree_at (t : tree) (ks : list value) : option tree :=
  match ks with
  | [] => Some t
  | k :: ks' =>
      match t with
      | Leaf _ => None
      | Node items =>
          match dict_get items k with
          | Some v => subtree_at v ks'
          | None => None
          end
      end
  end.

(** ** [group_data_by_unique_identifiers] *)

(** The body of the first loop for one entry:
    [if identifier in d: d[identifier].append(entry)]
    [else: d[identifier] = [entry]]; a new key goes to the end. *)
Fixpoint dict_append (unique_identifiers : list (value * list record))
    (identifier : value) (entry : record) : list (value * list record) :=
  match unique_identifiers with
  | [] => [(identifier, [entry])]
  | (k, v) :: d =>
      if decide (k = identifier) then (k, v ++ [entry]) :: d
      else (k, v) :: dict_append d identifier entry
  end.

(** [for entry in dataset: identifier = entry[index_list[0]]; ...].
    [index_list[0]] is evaluated once per entry, so an empty [index_list]
    raises only when there is an entry. *)
Fixpoint group_loop (index_list : list Z) (dataset : list record)
    (unique_identifiers : list (value * list record))
    : result (list (value * list record)) :=
  match dataset with
  | [] => Ok unique_identifiers
  | entry :: rest =>
      i ← py_index index_list 0;
      identifier ← py_index entry i;
      group_loop index_list rest (dict_append unique_identifiers identifier entry)
  end.

Section regroup.
Context (rec : list record → result tree).

(** [for k, v in d.items(): d[k] = group(v, index_list[1:])]: the
    buckets are replaced in iteration order; the first failing call
    ends the loop. *)
Fixpoint regroup (items : list (value * list record))
    : result (list (value * tree)) :=
  match items with
  | [] => Ok []
  | (k, v) :: rest =>
      t ← rec v;
      rest' ← regroup rest;
      Ok ((k, t) :: rest')
  end.
End regroup.

Fixpoint group_data_by_unique_identifiers (dataset : list record)
    (index_list : list Z) {struct index_list} : result tree :=
  unique_identifiers ← group_loop index_list dataset [];
  match index_list with
  | _ :: (_ :: _) as tl =>
      (* len(index_list) > 1 *)
      items ← regroup (λ v, group_data_by_unique_identifiers v tl)
                unique_identifiers;
      Ok (Node items)
  | _ => Ok (Node (prod_map id Leaf <$> unique_identifiers))
  end.

(** ** The random generator *)

(** A computation that may raise and that consumes draws of the random
    generator.  The generator is a list of natural numbers; each call of
    [random.choice] or each pick of [random.sample] takes the next number
    and reduces it modulo the number of alternatives, so that every
    outcome Python can produce is produced by some source and every
    source produces an outcome Python can produce.  An exhausted source
    keeps answering 0. *)
Definition Rand (A : Type) : Type := list nat → result (A * list nat).

#[global] Instance Rand_ret : MRet Rand := λ A a rs, Ok (a, rs).
#[global] Instance Rand_bind : MBind Rand := λ A B f m rs,
  match m rs with
  | Ok (a, rs') => f a rs'
  | Err e => Err e
  end.

Definition raise {A : Type} (e : error) : Rand A := λ _, Err e.

Definition draw : Rand nat := λ rs,
  match rs with
  | [] => Ok (0, [])
  | n :: rs' => Ok (n, rs')
  end.

(** [random.choice(seq)]: IndexError on an empty sequence. *)
Definition random_choice {A : Type} (seq : list A) : Rand A :=
  n ← draw;
  match seq !! (n mod length seq) with
  | Some x => mret x
  | None => raise IndexError
  end.

(** [k] picks without replacement, in selection order. *)
Fixpoint sample_loop {A : Type} (population : list A) (k : nat)
    : Rand (list A) :=
  match k with
  | 0 => mret []
  | S k' =>
      n ← draw;
      let j := n mod length population in
      match population !! j with
      | Some x => (rest ← sample_loop (delete j population) k'; mret (x :: rest))
      | None => raise ValueError
      end
  end.

(** [random.sample(population, k)]: ValueError when [k] is negative or
    larger than the population. *)
Definition random_sample {A : Type} (population : list A) (k : Z)
    : Rand (list A) :=
  if (k <? 0)%Z || (Z.of_nat (length population) <? k)%Z
  then raise ValueError
  else sample_loop population (Z.to_nat k).

(** ** [content_filter_recommendations_from_grouped_data] *)

(** The default of the parameter [recommendation_amount]; the recursive
    call does not pass the argument on, so every level below the
    outermost one runs with this value. *)
Definition default_recommendation_amount : Z := 4.

Section unpack.
Context (rec : tree → Rand (list slot * list nat)).

(** The first loop of the dict branch: the slots of every child are
    appended to [dataset], the incomplete indexes of the child are
    shifted by the number of slots collected before it. *)
Fixpoint unpack (items : list (value * tree)) (dataset : list slot)
    (incomplete_indexes : list nat) (current_index_in_dataset : nat)
    : Rand (list slot * list nat) :=
  match items with
  | [] => mret (dataset, incomplete_indexes)
  | (_, v) :: rest =>
      '(result_from_one_layer_deeper, incomplete_data) ← rec v;
      unpack rest (dataset ++ result_from_one_layer_deeper)
        (incomplete_indexes
           ++ ((λ x, x + current_index_in_dataset) <$> incomplete_data))
        (current_index_in_dataset + length result_from_one_layer_deeper)
  end.
End unpack.

(** [dataset[index].append(x)]; [dataset[index]] raises IndexError out
    of range. *)
Definition append_at (dataset : list slot) (index : nat) (x : record)
    : Rand (list slot) :=
  match dataset !! index with
  | Some s => mret (<[index := s ++ [x]]> dataset)
  | None => raise IndexError
  end.

(** [for i in range(len(dataset[index]), recommendation_amount)] with the
    body [dataset[index].append(random.choice(random.choice(dataset)))],
    after the range has been evaluated: [n] iterations. *)
Fixpoint peer_fill (n : nat) (index : nat) (dataset : list slot)
    : Rand (list slot) :=
  match n with
  | 0 => mret dataset
  | S n' =>
      s ← random_choice dataset;
      random_datapoint ← random_choice s;
      dataset' ← append_at dataset index random_datapoint;
      peer_fill n' index dataset'
  end.

(** The same loop with the body
    [dataset[index].append(random.choice(original_dataset))]. *)
Fixpoint global_fill (original_dataset : list record) (n : nat) (index : nat)
    (dataset : list slot) : Rand (list slot) :=
  match n with
  | 0 => mret dataset
  | S n' =>
      x ← random_choice original_dataset;
      dataset' ← append_at dataset index x;
      global_fill original_dataset n' index dataset'
  end.

(** [len(range(len(dataset[index]), recommendation_amount))]. *)
Definition range_size (dataset : list slot) (index : nat)
    (recommendation_amount : Z) : Rand nat :=
  match dataset !! index with
  | Some s => mret (Z.to_nat (recommendation_amount - Z.of_nat (length s)))
  | None => raise IndexError
  end.

(** [for index in incomplete_indexes: ...]; [todo] is the part of
    [incomplete_indexes] still to be visited, [n_incomplete] is
    [len(incomplete_indexes)], which the loop never changes.  The result
    carries [able_to_complete_datapoints]. *)
Fixpoint finish_loop (original_dataset : list record) (current_level : Z)
    (recommendation_amount : Z) (n_incomplete : nat) (todo : list nat)
    (dataset : list slot) : Rand (list slot * bool) :=
  match todo with
  | [] => mret (dataset, true)
  | index :: rest =>
      if (recommendation_amount
            <=? Z.of_nat (length dataset) - Z.of_nat n_incomplete)%Z
      then
        n ← range_size dataset index recommendation_amount;
        dataset' ← peer_fill n index dataset;
        finish_loop original_dataset current_level recommendation_amount
          n_incomplete rest dataset'
      else if (current_level =? 0)%Z then
        n ← range_size dataset index recommendation_amount;
        dataset' ← global_fill original_dataset n index dataset;
        finish_loop original_dataset current_level recommendation_amount
          n_incomplete rest dataset'
      else mret (dataset, false)
  end.

(** Lines 120-134: the fallback pass over the collected slots. *)
Definition finish_incomplete (original_dataset : list record)
    (current_level : Z) (recommendation_amount : Z)
    (dataset : list slot) (incomplete_indexes : list nat)
    : Rand (list slot * list nat) :=
  '(dataset', able_to_complete_datapoints) ←
    finish_loop original_dataset current_level recommendation_amount
      (length incomplete_indexes) incomplete_indexes dataset;
  mret (dataset', if able_to_complete_datapoints : bool then []
                  else incomplete_indexes).

Fixpoint content_filter_recommendations_from_grouped_data (data : tree)
    (original_dataset : list record) (current_level : Z)
    (recommendation_amount : Z) {struct data} : Rand (list slot * list nat) :=
  match data with
  | Node items =>
      '(dataset, incomplete_indexes) ←
        unpack (λ v, content_filter_recommendations_from_grouped_data v
                       original_dataset (current_level + 1)
                       default_recommendation_amount)
          items [] [] 0;
      finish_incomplete original_dataset current_level recommendation_amount
        dataset incomplete_indexes
  | Leaf data =>
      if (Z.of_nat (length data) <? recommendation_amount)%Z then
        s ← random_sample data
              (Z.min recommendation_amount (Z.of_nat (length data)));
        mret ([s], [0])
      else
        s ← random_sample data recommendation_amount;
        mret ([s], [])
  end.

(** ** [content_filter_result_to_useful_SQL_dataset] *)

(** What a Python call hands back: [None] or a list of rows. *)
Inductive pyobject : Type :=
  | PyNone
  | PyRows (rows : list (list value)).

(** [for product in recommendation: result_data.append(product[0])]. *)
Fixpoint products_loop (recommendation : slot) (result_data : list value)
    : result (list value) :=
  match recommendation with
  | [] => Ok result_data
  | product :: rest =>
      product_id ← py_index product 0;
      products_loop rest (result_data ++ [product_id])
  end.

(** The value of [result_data] at the end of one iteration of the outer
    loop: the attributes [recommendation[0][1:]] (a slice never raises),
    then the ids. *)
Definition result_data_of (recommendation : slot) : result (list value) :=
  first ← py_index recommendation 0;
  products_loop recommendation ([] ++ drop 1 first).

(** [for recommendation in data[0]: ...]; [stdout] collects what [print]
    is given (an exception ends the run and only the exception is kept).
    [result_data] is rebound at the start of every iteration and is not
    stored anywhere. *)
Fixpoint export_loop (recommendations : list slot) (stdout : list slot)
    : result (list slot) :=
  match recommendations with
  | [] => Ok stdout
  | recommendation :: rest =>
      _ ← result_data_of recommendation;
      export_loop rest (stdout ++ [recommendation])
  end.

(** The function has no [return] statement: after the loop it returns
    [None].  The result is paired with the printed slots. *)
Definition content_filter_result_to_useful_SQL_dataset
    (data : list slot * list nat) : result (pyobject * list slot) :=
  stdout ← export_loop data.1 [];
  Ok (PyNone, stdout).

(** ** SQL statements *)

Definition newline : string := String (Ascii.ascii_of_nat 10) EmptyString.

(** [n * s] on strings. *)
Fixpoint string_repeat (n : nat) (s : string) : string :=
  match n with
  | 0 => EmptyString
  | S n' => s +:+ string_repeat n' s
  end.

Definition construct_insert_query (table_name : string)
    (var_names : list string) : result string :=
  let q := "INSERT INTO " +:+ table_name +:+ " (" in
  first ← py_index var_names 0;
  let q := q +:+ first in
  let q := foldl (λ q var, q +:+ ", " +:+ var) q (drop 1 var_names) in
  Ok (q +:+ ") VALUES (%s"
        +:+ string_repeat (length var_names - 1) ", %s" +:+ ");").

(** The statements [create_rcmd_table] sends to [db.query], in order, and
    the exception that ends it, if any ([unique_attributes[0][0]] raises
    on an empty list, after the table has been dropped). *)
Definition create_rcmd_table (table_name : string)
    (unique_attributes : list (string * string))
    : list string * option error :=
  let drop_table := "DROP TABLE IF EXISTS " +:+ table_name +:+ ";" in
  let query := "CREATE TABLE " +:+ table_name +:+ "(" +:+ newline in
  let query :=
    foldl (λ q a, q +:+ a.1 +:+ " " +:+ a.2 +:+ "," +:+ newline)
      query unique_attributes in
  match py_index unique_attributes 0 with
  | Err e => ([drop_table], Some e)
  | Ok first =>
      let query :=
        query +:+ "rcmd_1 VARCHAR," +:+ newline
              +:+ "rcmd_2 VARCHAR," +:+ newline
              +:+ "rcmd_3 VARCHAR," +:+ newline
              +:+ "rcmd_4 VARCHAR," +:+ newline
              +:+ "PRIMARY KEY(" +:+ first.1 in
      let query :=
        foldl (λ q a, q +:+ ", " +:+ a.1) query (drop 1 unique_attributes) in
      let query :=
        query +:+ ")," +:+ newline
              +:+ "FOREIGN KEY(rcmd_1) REFERENCES Products(id)," +:+ newline
              +:+ "FOREIGN KEY(rcmd_2) REFERENCES Products(id)," +:+ newline
              +:+ "FOREIGN KEY(rcmd_3) REFERENCES Products(id)," +:+ newline
              +:+ "FOREIGN KEY(rcmd_4) REFERENCES Products(id)" +:+ newline
              +:+ ");" in
      ([drop_table; query], None)
  end.

(** ** The module-level script *)

(** The arguments the script passes, lines 161-167. *)
Definition script_index_list : list Z := [1; 2]%Z.
Definition script_table_name : string := "Content_filtered".
Definition script_unique_attributes : list (string * string) :=
  [("Category", "VARCHAR"); ("Brand", "VARCHAR")].
Definition script_var_names : list string := ["Category"; "Brand"].

(** [query = construct_insert_query("Content_filtered", ["Category", "Brand"])]. *)
Definition script_query : result string :=
  construct_insert_query script_table_name script_var_names.

(** Lines 162-164 for a query result [products]. *)
Definition script_dataset (products : list record)
    : Rand (pyobject * list slot) := λ rs,
  match group_data_by_unique_identifiers products script_index_list with
  | Err e => Err e
  | Ok grouped =>
      match content_filter_recommendations_from_grouped_data grouped products
              0 default_recommendation_amount rs with
      | Err e => Err e
      | Ok (recommendations, rs') =>
          match content_filter_result_to_useful_SQL_dataset recommendations with
          | Err e => Err e
          | Ok dataset => Ok (dataset, rs')
          end
      end
  end.

(** ** Sample data *)

Definition product (id : Z) (category brand : string) : record :=
  [VInt id; VStr category; VStr brand].

(** The catalogue of the specification's scenario. *)
Definition catalogue : list record :=
  [product 1 "A" "X"; product 2 "A" "X"; product 3 "A" "X";
   product 4 "A" "X"; product 5 "A" "X"; product 6 "B" "Y"].

(** Four brands with four products each and one brand with a single
    product, all in one category. *)
Definition brand_of (brand : string) (first_id : Z) : list record :=
  [product first_id "A" brand; product (first_id + 1) "A" brand;
   product (first_id + 2) "A" brand; product (first_id + 3) "A" brand].

Definition five_brands : list record :=
  brand_of "P" 1 ++ brand_of "Q" 5 ++ brand_of "R" 9 ++ brand_of "S" 13
    ++ [product 17 "A" "T"].

(** The slots collected for the five brands when every leaf is sampled
    in order: four complete slots and the short slot of brand T. *)
Definition four_complete_one_short : list slot :=
  [brand_of "P" 1; brand_of "Q" 5; brand_of "R" 9; brand_of "S" 13;
   [product 17 "A" "T"]].

(** The catalogue grouped by category, then brand. *)
Definition catalogue_tree : tree :=
  Node [(VStr "A", Node [(VStr "X", Leaf (take 5 catalogue))]);
        (VStr "B", Node [(VStr "Y", Leaf (drop 5 catalogue))])].

(** A batch of two complete slots for the catalogue. *)
Definition catalogue_batch : list slot :=
  [take 4 catalogue;
   [product 6 "B" "Y"; product 1 "A" "X"; product 2 "A" "X"; product 1 "A" "X"]].

(** The five brands below their category, as the grouper builds it. *)
Definition five_brands_node : tree :=
  Node [(VStr "P", Leaf (brand_of "P" 1)); (VStr "Q", Leaf (brand_of "Q" 5));
        (VStr "R", Leaf (brand_of "R" 9)); (VStr "S", Leaf (brand_of "S" 13));
        (VStr "T", Leaf [product 17 "A" "T"])].

(** ** Predicates used in the statements *)

(** What the first loop guarantees about every bucket: it is not empty
    and its rows carry the bucket's key at position [i]. *)
Definition bucket_ok (i : Z) (kv : value * list record) : Prop :=
  kv.2 ≠ [] ∧ Forall (λ r, py_index r i = Ok kv.1) kv.2.

(** [new] is [old] with rows appended to some of its slots, every
    appended row satisfying [src]. *)
Definition grown (src : record → Prop) (old new : list slot) : Prop :=
  Forall2 (λ o n, ∃ extra, n = o ++ extra ∧ Forall src extra) old new.

(** The state of a batch of [n] slots below the outermost call: the
    incomplete indexes are positions of the batch, no slot is empty or
    longer than the default amount, the slots outside the incomplete
    indexes hold exactly the default amount, and all rows satisfy [src]. *)
Definition batch_inv (src : record → Prop) (n : nat) (dataset : list slot)
    (incomplete_indexes : list nat) : Prop :=
  length dataset = n
  ∧ Forall (λ i, i < n) incomplete_indexes
  ∧ Forall (λ s, s ≠ [] ∧ length s ≤ 4 ∧ Forall src s) dataset
  ∧ (∀ i s, dataset !! i = Some s → i ∉ incomplete_indexes → length s = 4).

(** Where the rows of the slots of a call at [current_level] come from:
    the leaves below the node, and at the outermost level also the whole
    dataset. *)
Definition row_source (t : tree) (original_dataset : list record)
    (current_level : Z) (r : record) : Prop :=
  r ∈ tree_records t ∨ (current_level = 0%Z ∧ r ∈ original_dataset).

(** The effect of a completed fallback pass on the lengths: the slots at
    the indexes [todo] are filled up to [k] rows, the others are left as
    they were. *)
Definition filled (k : Z) (todo : list nat) (old new : list slot) : Prop :=
  ∀ i o n, old !! i = Some o → new !! i = Some n →
    (i ∈ todo → Z.of_nat (length n) = Z.max (Z.of_nat (length o)) k)
    ∧ (i ∉ todo → n = o).

(** What a call with the default amount establishes at every level from
    the outermost one downwards, for every state of the random generator:
    it returns, and its batch satisfies [batch_inv]. *)
Definition default_spec (t : tree) : Prop :=
  ∀ original_dataset current_level rs,
    (0 ≤ current_level)%Z →
    original_dataset ≠ [] ∨ (0 < current_level)%Z →
    ∃ slots incomplete_indexes rs',
      content_filter_recommendations_from_grouped_data t original_dataset
        current_level default_recommendation_amount rs
      = Ok ((slots, incomplete_indexes), rs')
      ∧ batch_inv (row_source t original_dataset current_level)
          (leaf_count t) slots incomplete_indexes.

(** Every row appended to a slot also occurs in another slot of the
    batch.  This is what borrowing from complete sibling slots only
    would imply, since the slot a row is taken from keeps the row. *)
Definition taken_from_other_slots (old new : list slot) : Prop :=
  ∀ i o extra r,
    old !! i = Some o → new !! i = Some (o ++ extra) → r ∈ extra →
    ∃ j s, j ≠ i ∧ new !! j = Some s ∧ r ∈ s.

(** ** Notions used to describe the remaining behaviour *)

#[global] Instance error_eq_dec : EqDecision error.
Proof. solve_decision. Defined.

#[global] Instance result_eq_dec {A : Type} `{EqDecision A} :
  EqDecision (result A).
Proof. solve_decision. Defined.

(** [sep.join(l)]. *)
Fixpoint join (sep : string) (l : list string) : string :=
  match l with
  | [] => ""
  | x :: l' =>
      match l' with
      | [] => x
      | _ => x +:+ sep +:+ join sep l'
      end
  end.

(** The lines [name type,] of a [CREATE TABLE] statement. *)
Fixpoint column_lines (unique_attributes : list (string * string)) : string :=
  match unique_attributes with
  | [] => ""
  | a :: rest => a.1 +:+ " " +:+ a.2 +:+ "," +:+ newline +:+ column_lines rest
  end.

(** The row [r] carries the keys [ks] at the indexes [index_list]. *)
Definition matches (index_list : list Z) (ks : list value) (r : record)
    : Prop :=
  Forall2 (λ i key, py_index r i = Ok key) index_list ks.

#[global] Instance matches_dec index_list ks r :
  Decision (matches index_list ks r).
Proof. unfold matches. apply _. Defined.

(** The distinct values of a list, in the order of their first
    occurrence. *)
Fixpoint first_seen (l : list value) : list value :=
  match l with
  | [] => []
  | x :: l' => x :: filter (λ y, y ≠ x) (first_seen l')
  end.

(** The keys of every dict of the tree are pairwise distinct. *)
#[warnings="-register-all"]
Inductive keys_distinct : tree → Prop :=
  | keys_distinct_leaf data : keys_distinct (Leaf data)
  | keys_distinct_node items :
      NoDup items.*1 →
      Forall (λ kv, keys_distinct kv.2) items →
      keys_distinct (Node items).

(** Every leaf list lies below exactly [n] dicts. *)
Fixpoint has_depth (n : nat) (t : tree) : Prop :=
  match n with
  | 0 => ∃ data, t = Leaf data
  | S n' => ∃ items, t = Node items ∧ Forall (λ kv, has_depth n' kv.2) items
  end.

(** The leaf lists of a tree, in iteration order. *)
Fixpoint tree_leaves (t : tree) : list (list record) :=
  match t with
  | Leaf data => [data]
  | Node items => mjoin ((λ kv, tree_leaves kv.2) <$> items)
  end.

(** The slot starts with the rows sampled from the leaf under the
    default amount; whatever follows was appended by a fallback. *)
Definition primary_selection (leaf : list record) (s : slot) : Prop :=
  ∃ own extra,
    s = own ++ extra
    ∧ length own = 4 `min` length leaf
    ∧ ∃ rest, own ++ rest ≡ₚ leaf.

(** The state of a slot when the outermost call with the amount [k]
    returns: it was complete for the levels below and still holds
    exactly the default amount, or it was short and has been filled up to
    exactly [k] rows, or it was short and already held more than [k]
    rows, which means that nothing had to be added. *)
Definition completed (k : Z) (s : slot) : Prop :=
  (Z.of_nat (length s) = default_recommendation_amount
   ∨ Z.of_nat (length s) = k
   ∨ k < Z.of_nat (length s) < default_recommendation_amount)%Z.

(** * Properties *)

(** ** Exceptions and indexing *)

Lemma result_bind_Ok {A B : Type} (f : A → result B) (m : result A) (b : B) :
  m ≫= f = Ok b ↔ ∃ a, m = Ok a ∧ f a = Ok b.
Proof.
  destruct m as [a|e]; simpl; split.
  - eauto.
  - by intros (a' & [= ->] & ?).
  - done.
  - by intros (? & ? & ?).
Qed.

Lemma py_index_Ok {A : Type} (seq : list A) (i : Z) (x : A) :
  py_index seq i = Ok x → valid_index seq i ∧ x ∈ seq.
Proof.
  unfold py_index, valid_index. intros H.
  destruct (i <? 0)%Z eqn:Hi; [apply Z.ltb_lt in Hi|apply Z.ltb_ge in Hi].
  - destruct (i + Z.of_nat (length seq) <? 0)%Z eqn:Hj; [done|].
    apply Z.ltb_ge in Hj.
    destruct (seq !! Z.to_nat (i + Z.of_nat (length seq))) as [y|] eqn:Hl;
      [|done].
    injection H as ->. split; [lia|]. by eapply list_elem_of_lookup_2.
  - destruct (i <? 0)%Z eqn:Hj; [done|].
    destruct (seq !! Z.to_nat i) as [y|] eqn:Hl; [|done].
    injection H as ->. apply lookup_lt_Some in Hl as Hlt.
    split; [lia|]. by eapply list_elem_of_lookup_2.
Qed.

Lemma py_index_valid {A : Type} (seq : list A) (i : Z) :
  valid_index seq i → ∃ x, py_index seq i = Ok x.
Proof.
  unfold py_index, valid_index. intros H.
  destruct (i <? 0)%Z eqn:Hi; [apply Z.ltb_lt in Hi|apply Z.ltb_ge in Hi].
  - destruct (i + Z.of_nat (length seq) <? 0)%Z eqn:Hj;
      [apply Z.ltb_lt in Hj; lia|].
    destruct (lookup_lt_is_Some_2 seq (Z.to_nat (i + Z.of_nat (length seq))))
      as [x Hx]; [lia|].
    rewrite Hx. eauto.
  - destruct (i <? 0)%Z eqn:Hj; [apply Z.ltb_lt in Hj; lia|].
    destruct (lookup_lt_is_Some_2 seq (Z.to_nat i)) as [x Hx]; [lia|].
    rewrite Hx. eauto.
Qed.

Lemma py_index_invalid {A : Type} (seq : list A) (i : Z) :
  ¬ valid_index seq i → py_index seq i = Err IndexError.
Proof.
  intros H. destruct (py_index seq i) as [x|[]] eqn:E.
  - by apply py_index_Ok in E as [? _].
  - done.
  - unfold py_index in E. repeat case_match; simplify_eq.
Qed.

(** ** The grouper *)

Lemma dict_append_records d k e :
  mjoin (dict_append d k e).*2 ≡ₚ mjoin d.*2 ++ [e].
Proof.
  induction d as [|[k' v] d IH]; simpl; [done|].
  case_decide; simpl.
  - rewrite <-!(assoc_L (++)). f_equiv. apply Permutation_app_comm.
  - rewrite IH. by rewrite (assoc_L (++)).
Qed.

Lemma dict_append_ok i d k e :
  py_index e i = Ok k →
  Forall (bucket_ok i) d → Forall (bucket_ok i) (dict_append d k e).
Proof.
  intros He. induction 1 as [|[k' v] d [Hne Hv] Hd IH]; simpl.
  - constructor; [|constructor]. split; simpl; [done|]. by constructor.
  - case_decide; subst; constructor; try done.
    split; simpl in *; [by destruct v|].
    apply Forall_app; split; [done|]. by constructor.
Qed.

Lemma group_loop_nil dataset d d' :
  group_loop [] dataset d = Ok d' → dataset = [] ∧ d' = d.
Proof. destruct dataset; simpl; [by intros [= ->]|done]. Qed.

Lemma group_loop_inv i tl dataset d d' :
  group_loop (i :: tl) dataset d = Ok d' →
  mjoin d'.*2 ≡ₚ mjoin d.*2 ++ dataset
  ∧ (Forall (bucket_ok i) d → Forall (bucket_ok i) d')
  ∧ (d' = [] → dataset = [])
  ∧ Forall (λ r, valid_index r i) dataset.
Proof.
  revert d. induction dataset as [|entry rest IH]; intros d; simpl.
  - intros [= ->]. by rewrite (right_id_L [] (++)).
  - change (py_index (i :: tl) 0) with (Ok i). simpl.
    intros (k & Hk & H)%result_bind_Ok.
    apply IH in H as (Hperm & Hok & Hnil & Hval). split_and!.
    4: { constructor; [|done]. by apply py_index_Ok in Hk as [? _]. }
    + rewrite Hperm, dict_append_records, <-(assoc_L (++)). done.
    + intros Hd. by apply Hok, dict_append_ok.
    + intros ->. rewrite dict_append_records in Hperm.
      apply Permutation_length in Hperm.
      rewrite !length_app in Hperm. simpl in Hperm. lia.
Qed.

Lemma group_loop_total i tl dataset d :
  Forall (λ r, valid_index r i) dataset →
  ∃ d', group_loop (i :: tl) dataset d = Ok d'.
Proof.
  intros H. revert d. induction H as [|entry rest He _ IH]; intros d; simpl.
  - eauto.
  - change (py_index (i :: tl) 0) with (Ok i). simpl.
    destruct (py_index_valid _ _ He) as [k ->]. simpl. apply IH.
Qed.

Lemma regroup_inv rec d items :
  regroup rec d = Ok items →
  Forall2 (λ kb kt, kt.1 = kb.1 ∧ rec kb.2 = Ok kt.2) d items.
Proof.
  revert items. induction d as [|[k v] d IH]; intros items; simpl.
  - intros [= <-]. constructor.
  - intros (t & Ht & (rest' & Hr & [= <-])%result_bind_Ok)%result_bind_Ok.
    constructor; [done|]. by apply IH.
Qed.

Lemma regroup_total rec d :
  Forall (λ kb, ∃ t, rec kb.2 = Ok t) d → ∃ items, regroup rec d = Ok items.
Proof.
  induction 1 as [|[k v] d [t Ht] _ [items IH]]; simpl; [eauto|].
  simpl in Ht. rewrite Ht. simpl. rewrite IH. simpl. eauto.
Qed.

(** The shape of every successful result: the buckets of the first loop,
    each turned into a leaf (last index) or regrouped by the remaining
    indexes. *)
Lemma group_unfold dataset index_list t :
  group_data_by_unique_identifiers dataset index_list = Ok t →
  ∃ d items,
    group_loop index_list dataset [] = Ok d ∧ t = Node items ∧
    Forall2 (λ kb kt, kt.1 = kb.1 ∧
               match tail index_list with
               | [] => kt.2 = Leaf kb.2
               | tl => group_data_by_unique_identifiers kb.2 tl = Ok kt.2
               end) d items.
Proof.
  destruct index_list as [|i [|i' tl]]; simpl;
    intros (d & Hd & H)%result_bind_Ok; exists d.
  - injection H as <-. eexists; split_and!; [done..|].
    apply Forall2_fmap_r, Forall_Forall2_diag, Forall_true. by intros [].
  - injection H as <-. eexists; split_and!; [done..|].
    apply Forall2_fmap_r, Forall_Forall2_diag, Forall_true. by intros [].
  - apply result_bind_Ok in H as (items & Hi & [= <-]).
    exists items. split_and!; [done..|]. by apply regroup_inv in Hi.
Qed.

Lemma py_index_Err {A : Type} (seq : list A) (i : Z) (e : error) :
  py_index seq i = Err e → e = IndexError.
Proof. unfold py_index. intros H. repeat case_match; by simplify_eq. Qed.

Lemma group_loop_Err index_list dataset d e :
  group_loop index_list dataset d = Err e → e = IndexError.
Proof.
  revert d. induction dataset as [|entry rest IH]; intros d; simpl; [done|].
  destruct (py_index index_list 0) as [i|e'] eqn:Hi; simpl;
    [|intros [= <-]; by eapply py_index_Err].
  destruct (py_index entry i) as [k|e'] eqn:Hk; simpl;
    [|intros [= <-]; by eapply py_index_Err].
  apply IH.
Qed.

Lemma Forall2_mjoin_Permutation {A B C : Type} (f : A → list C)
    (g : B → list C) (l : list A) (k : list B) :
  Forall2 (λ a b, g b ≡ₚ f a) l k → mjoin (g <$> k) ≡ₚ mjoin (f <$> l).
Proof. induction 1 as [|a b l k Hab _ IH]; simpl; [done|]. by rewrite Hab, IH. Qed.

Lemma bucket_records_subset (d : list (value * list record)) dataset kb r :
  mjoin d.*2 ≡ₚ dataset → kb ∈ d → r ∈ kb.2 → r ∈ dataset.
Proof.
  intros Hperm Hkb Hr. rewrite <-Hperm. apply list_elem_of_join.
  exists kb.2. split; [done|]. by apply list_elem_of_fmap_2.
Qed.

(** A successful grouping stores every row exactly once and has no empty
    leaf. *)
Lemma group_inv dataset index_list t :
  group_data_by_unique_identifiers dataset index_list = Ok t →
  tree_records t ≡ₚ dataset ∧ leaves_nonempty t.
Proof.
  revert dataset t. induction index_list as [|i tl IH]; intros dataset t H;
    apply group_unfold in H as (d & items & Hd & -> & HF).
  - apply group_loop_nil in Hd as [-> ->]. apply Forall2_nil_inv_l in HF as ->.
    split; [done|]. constructor. constructor.
  - apply group_loop_inv in Hd as (Hperm & Hok & _ & _).
    specialize (Hok (Forall_nil_2 _)). simpl in HF, Hperm.
    assert (Forall2 (λ kb kt, tree_records kt.2 ≡ₚ kb.2 ∧ leaves_nonempty kt.2)
              d items) as HF'.
    { clear Hperm. induction HF as [|kb kt d items [_ Hkt] _ IHF];
        [constructor|].
      apply Forall_cons_1 in Hok as [[Hne _] Hok].
      constructor; [|by apply IHF]. destruct tl.
      - rewrite Hkt. split; [done|]. by constructor.
      - by apply IH. }
    split.
    + rewrite <-Hperm. simpl.
      apply (Forall2_mjoin_Permutation snd (λ kt, tree_records kt.2)).
      eapply Forall2_impl; [apply HF'|]. by intros ?? [? _].
    + constructor. clear -HF'. induction HF' as [|???? [_ ?]]; by constructor.
Qed.

Lemma group_total dataset index_list :
  index_list ≠ [] →
  (∀ r i, r ∈ dataset → i ∈ index_list → valid_index r i) →
  ∃ t, group_data_by_unique_identifiers dataset index_list = Ok t.
Proof.
  revert dataset. induction index_list as [|i tl IH]; [done|].
  intros dataset _ Hvalid.
  destruct (group_loop_total i tl dataset []) as [d Hd].
  { apply Forall_forall. intros r Hr. apply Hvalid; [done|apply list_elem_of_here]. }
  simpl. rewrite Hd. simpl. destruct tl as [|i' tl']; [eauto|].
  apply group_loop_inv in Hd as (Hperm & _ & _ & _).
  destruct (regroup_total
              (λ v, group_data_by_unique_identifiers v (i' :: tl')) d)
    as [items Hitems].
  { apply Forall_forall. intros kb Hkb. apply IH; [done|].
    intros r j Hr Hj. apply Hvalid; [|by apply list_elem_of_further].
    by eapply bucket_records_subset. }
  rewrite Hitems. simpl. eauto.
Qed.

(** C2 (partition totality).  For a non-empty index list whose indexes
    are valid positions of every row, the grouper returns a tree, and the
    rows stored in its leaves are the input rows, each as often as it
    occurs in the input: nothing is dropped, nothing is duplicated. *)
Theorem partition_totality (dataset : list record) (index_list : list Z) :
  index_list ≠ [] →
  (∀ r i, r ∈ dataset → i ∈ index_list → valid_index r i) →
  ∃ t, group_data_by_unique_identifiers dataset index_list = Ok t
       ∧ tree_records t ≡ₚ dataset.
Proof.
  intros Hne Hvalid. destruct (group_total _ _ Hne Hvalid) as [t Ht].
  exists t. split; [done|]. by apply group_inv in Ht as [? _].
Qed.

Lemma partition_totality_witness :
  ∃ t, group_data_by_unique_identifiers catalogue script_index_list = Ok t
       ∧ tree_records t ≡ₚ catalogue.
Proof.
  apply partition_totality; [done|].
  intros r i Hr Hi. unfold valid_index.
  assert (Forall (λ r : record, length r = 3) catalogue) as Hlen
    by (repeat constructor).
  rewrite (proj1 (Forall_forall _ _) Hlen r Hr).
  apply list_elem_of_In in Hi. simpl in Hi. lia.
Defined.

Lemma regroup_Err rec d e :
  (∀ v e', rec v = Err e' → e' = IndexError) →
  regroup rec d = Err e → e = IndexError.
Proof.
  intros Hrec. induction d as [|[k v] d IH]; simpl; [done|].
  destruct (rec v) as [t|e'] eqn:Hv; simpl;
    [|intros [= <-]; by eapply Hrec].
  destruct (regroup rec d) as [rest|e'] eqn:Hd; simpl; [done|].
  intros [= <-]. by apply IH.
Qed.

(** The only exception the grouper raises is IndexError. *)
Lemma group_Err dataset index_list e :
  group_data_by_unique_identifiers dataset index_list = Err e →
  e = IndexError.
Proof.
  revert dataset e. induction index_list as [|i tl IH]; intros dataset e;
    simpl.
  - destruct (group_loop [] dataset []) as [d|e'] eqn:Hd; simpl; [done|].
    intros [= <-]. by eapply group_loop_Err.
  - destruct (group_loop (i :: tl) dataset []) as [d|e'] eqn:Hd; simpl;
      [|intros [= <-]; by eapply group_loop_Err].
    destruct tl as [|i' tl']; [done|].
    destruct (regroup _ d) as [items|e'] eqn:Hr; simpl; [done|].
    intros [= <-]. eapply regroup_Err; [|apply Hr].
    intros v e0. apply IH.
Qed.

Lemma regroup_fails rec d :
  (∀ v e, rec v = Err e → e = IndexError) →
  Exists (λ kb, rec kb.2 = Err IndexError) d →
  regroup rec d = Err IndexError.
Proof.
  intros Hrec. induction 1 as [[k v] d Hv|[k v] d _ IH]; simpl.
  - simpl in Hv. by rewrite Hv.
  - destruct (rec v) as [t|e] eqn:Hv; simpl.
    + by rewrite IH.
    + by rewrite (Hrec _ _ Hv).
Qed.

(** Without an index, or with an index that some row does not have, a
    non-empty dataset makes the grouper raise IndexError. *)
Lemma group_fails dataset index_list :
  dataset ≠ [] →
  index_list = [] ∨
    (∃ r i, r ∈ dataset ∧ i ∈ index_list ∧ ¬ valid_index r i) →
  group_data_by_unique_identifiers dataset index_list = Err IndexError.
Proof.
  revert dataset. induction index_list as [|i tl IH]; intros dataset Hne Hbad.
  - by destruct dataset.
  - destruct Hbad as [|(r & j & Hr & Hj & Hbad)]; [done|].
    simpl. destruct (group_loop (i :: tl) dataset []) as [d|e] eqn:Hd; simpl.
    2: { by apply group_loop_Err in Hd as ->. }
    apply group_loop_inv in Hd as (Hperm & _ & _ & Hval). simpl in Hperm.
    assert (j ∈ tl) as Hjtl.
    { apply elem_of_cons in Hj as [->|]; [|done].
      destruct Hbad. by apply (proj1 (Forall_forall _ _) Hval). }
    destruct tl as [|i' tl']; [by apply elem_of_nil in Hjtl|].
    rewrite regroup_fails; [done|intros v e; apply group_Err|].
    rewrite <-Hperm in Hr.
    apply list_elem_of_join in Hr as (b & Hrb & Hb).
    apply list_elem_of_fmap in Hb as (kb & -> & Hkb).
    apply Exists_exists. exists kb. split; [done|].
    apply IH; [by intros Hnil; rewrite Hnil in Hrb; apply elem_of_nil in Hrb|].
    right. by exists r, j.
Qed.

(** C8 (fail-fast preconditions), as the code has it.  The grouper checks
    nothing before it starts.  An empty dataset is grouped into the empty
    dict whatever the index list is; for a non-empty dataset an empty
    index list, or an index that is out of range for some row, ends the
    call with Python's IndexError, raised by the lookup that fails. *)
Theorem precondition_violations (dataset : list record) (index_list : list Z) :
  (dataset = [] →
     group_data_by_unique_identifiers dataset index_list = Ok (Node []))
  ∧ (dataset ≠ [] →
     index_list = [] ∨
       (∃ r i, r ∈ dataset ∧ i ∈ index_list ∧ ¬ valid_index r i) →
     group_data_by_unique_identifiers dataset index_list = Err IndexError).
Proof.
  split.
  - intros ->. by destruct index_list as [|? [|? ?]].
  - apply group_fails.
Qed.

Lemma precondition_violations_witness :
  group_data_by_unique_identifiers [] [7%Z] = Ok (Node [])
  ∧ group_data_by_unique_identifiers
      [product 1 "A" "X"; [VInt 2; VStr "A"]; product 3 "B" "Y"]
      script_index_list
    = Err IndexError.
Proof.
  split.
  - by apply (proj1 (precondition_violations [] [7%Z])).
  - apply (proj2 (precondition_violations
                    [product 1 "A" "X"; [VInt 2; VStr "A"]; product 3 "B" "Y"]
                    script_index_list)); [done|].
    right. exists [VInt 2; VStr "A"], 2%Z. split_and!.
    + apply list_elem_of_further, list_elem_of_here.
    + apply list_elem_of_further, list_elem_of_here.
    + unfold valid_index. simpl. lia.
Defined.

(** C8, the claim as stated, fails: an empty record list together with an
    empty index list is not rejected, the grouper returns the empty dict. *)
Lemma fail_fast_counterexample :
  ¬ (∀ dataset index_list,
       dataset = [] ∨ index_list = [] →
       ∃ e, group_data_by_unique_identifiers dataset index_list = Err e).
Proof. intros H. by destruct (H [] []) as [e He]; [left|]. Qed.

(** An out-of-range index behind the first one is met only after the
    first level has been grouped. *)
Example failure_after_first_level :
  group_loop [1%Z; 5%Z] [product 1 "A" "X"] []
    = Ok [(VStr "A", [product 1 "A" "X"])]
  ∧ group_data_by_unique_identifiers [product 1 "A" "X"] [1%Z; 5%Z]
    = Err IndexError.
Proof. done. Qed.

Lemma dict_get_Some {V : Type} (d : list (value * V)) k v :
  dict_get d k = Some v → (k, v) ∈ d.
Proof.
  induction d as [|[k' v'] d IH]; simpl; [done|].
  case_decide; subst.
  - intros [= ->]. apply list_elem_of_here.
  - intros ?. by apply list_elem_of_further, IH.
Qed.

(** Permutation purity: the rows below the node reached by the keys [ks]
    are rows of the dataset that carry [ks] at the first indexes of the
    index list. *)
Lemma group_subtree dataset index_list t ks t' :
  group_data_by_unique_identifiers dataset index_list = Ok t →
  subtree_at t ks = Some t' →
  leaves_nonempty t'
  ∧ Forall (λ r, r ∈ dataset
                 ∧ Forall2 (λ i key, py_index r i = Ok key)
                     (take (length ks) index_list) ks)
      (tree_records t').
Proof.
  revert dataset t ks. induction index_list as [|i tl IH];
    intros dataset t ks Ht Hsub.
  - destruct ks as [|k ks].
    + injection Hsub as <-. apply group_inv in Ht as [Hperm Hne].
      split; [done|]. apply Forall_forall. intros r Hr.
      rewrite <-Hperm. split; [done|constructor].
    + apply group_unfold in Ht as (d & items & Hd & -> & HF).
      apply group_loop_nil in Hd as [-> ->].
      by apply Forall2_nil_inv_l in HF as ->.
  - destruct ks as [|k ks].
    + injection Hsub as <-. apply group_inv in Ht as [Hperm Hne].
      split; [done|]. apply Forall_forall. intros r Hr.
      rewrite <-Hperm. split; [done|constructor].
    + apply group_unfold in Ht as (d & items & Hd & -> & HF).
      apply group_loop_inv in Hd as (Hperm & Hok & _ & _).
      specialize (Hok (Forall_nil_2 _)). simpl in Hperm.
      cbn [subtree_at] in Hsub.
      destruct (dict_get items k) as [v|] eqn:Hget; [|done].
      apply dict_get_Some, list_elem_of_lookup in Hget as [n Hn].
      destruct (Forall2_lookup_r _ _ _ _ _ HF Hn) as ([k' b] & Hb & Hk & Hv).
      simpl in Hk, Hv. subst k'.
      assert ((k, b) ∈ d) as Hin by (by eapply list_elem_of_lookup_2).
      apply (proj1 (Forall_forall _ _) Hok) in Hin as Hbok.
      destruct Hbok as [Hbne Hbkey]. simpl in Hbne, Hbkey.
      assert (leaves_nonempty t'
              ∧ Forall (λ r, r ∈ b
                          ∧ Forall2 (λ i key, py_index r i = Ok key)
                              (take (length ks) tl) ks) (tree_records t'))
        as [Hne HF'].
      { destruct tl as [|i' tl'].
        - subst v. destruct ks; [|done]. injection Hsub as <-.
          split; [by constructor|]. apply Forall_forall. intros r Hr.
          split; [done|constructor].
        - by eapply IH. }
      split; [done|]. eapply Forall_impl; [apply HF'|].
      intros r [Hr Hkeys]. split.
      * by eapply (bucket_records_subset _ _ (k, b)).
      * simpl. constructor; [|done].
        by apply (proj1 (Forall_forall _ _) Hbkey).
Qed.

(** ** The random generator *)

Lemma rand_bind_Ok {A B : Type} (m : Rand A) (f : A → Rand B) rs a rs1 :
  m rs = Ok (a, rs1) → (m ≫= f) rs = f a rs1.
Proof. unfold mbind, Rand_bind. by intros ->. Qed.

Lemma rand_bind_inv {A B : Type} (m : Rand A) (f : A → Rand B) rs b rs' :
  (m ≫= f) rs = Ok (b, rs') →
  ∃ a rs1, m rs = Ok (a, rs1) ∧ f a rs1 = Ok (b, rs').
Proof.
  unfold mbind, Rand_bind. destruct (m rs) as [[a rs1]|e]; [eauto|done].
Qed.

Lemma draw_total rs : ∃ n rs', draw rs = Ok (n, rs').
Proof. destruct rs; simpl; eauto. Qed.

Lemma random_choice_total {A : Type} (seq : list A) rs :
  seq ≠ [] → ∃ x rs', random_choice seq rs = Ok (x, rs') ∧ x ∈ seq.
Proof.
  intros Hne. unfold random_choice.
  destruct (draw_total rs) as (n & rs' & Hn).
  rewrite (rand_bind_Ok _ _ _ _ _ Hn).
  destruct (lookup_lt_is_Some_2 seq (n mod length seq)) as [x Hx].
  { apply Nat.mod_upper_bound. by destruct seq. }
  rewrite Hx. exists x, rs'. split; [done|]. by eapply list_elem_of_lookup_2.
Qed.

Lemma sample_loop_total {A : Type} (population : list A) (k : nat) rs :
  k ≤ length population →
  ∃ s rs', sample_loop population k rs = Ok (s, rs')
           ∧ length s = k ∧ ∃ rest, s ++ rest ≡ₚ population.
Proof.
  revert population rs. induction k as [|k IH]; intros population rs Hk.
  - exists [], rs. split_and!; [done..|]. by exists population.
  - cbn [sample_loop]. destruct (draw_total rs) as (n & rs1 & Hn).
    rewrite (rand_bind_Ok _ _ _ _ _ Hn). cbv zeta.
    destruct (lookup_lt_is_Some_2 population (n mod length population))
      as [x Hx].
    { apply Nat.mod_upper_bound. destruct population; simpl in *; lia. }
    rewrite Hx.
    destruct (IH (delete (n mod length population) population) rs1)
      as (s & rs' & Hs & Hlen & rest & Hperm).
    { rewrite length_delete by eauto. lia. }
    rewrite (rand_bind_Ok _ _ _ _ _ Hs). exists (x :: s), rs'.
    split_and!; [done|simpl; lia|]. exists rest. simpl. rewrite Hperm.
    symmetry. by apply delete_Permutation.
Qed.

Lemma random_sample_total {A : Type} (population : list A) (k : Z) rs :
  (0 ≤ k ≤ Z.of_nat (length population))%Z →
  ∃ s rs', random_sample population k rs = Ok (s, rs')
           ∧ Z.of_nat (length s) = k ∧ ∃ rest, s ++ rest ≡ₚ population.
Proof.
  intros Hk. unfold random_sample.
  destruct (k <? 0)%Z eqn:H1; [apply Z.ltb_lt in H1; lia|].
  destruct (Z.of_nat (length population) <? k)%Z eqn:H2;
    [apply Z.ltb_lt in H2; lia|]. simpl.
  destruct (sample_loop_total population (Z.to_nat k) rs)
    as (s & rs' & Hs & Hlen & Hrest); [lia|].
  exists s, rs'. split_and!; [done|lia|done].
Qed.

(** ** The recommender on a leaf *)

Lemma leaf_spec data original_dataset current_level k rs :
  (0 ≤ k)%Z →
  ∃ s rs',
    content_filter_recommendations_from_grouped_data (Leaf data)
      original_dataset current_level k rs
    = Ok (([s], if (Z.of_nat (length data) <? k)%Z then [0] else []), rs')
    ∧ Z.of_nat (length s) = Z.min k (Z.of_nat (length data))
    ∧ ∃ rest, s ++ rest ≡ₚ data.
Proof.
  intros Hk. cbn [content_filter_recommendations_from_grouped_data].
  destruct (Z.of_nat (length data) <? k)%Z eqn:Hlt;
    [apply Z.ltb_lt in Hlt|apply Z.ltb_ge in Hlt].
  - destruct (random_sample_total data (Z.min k (Z.of_nat (length data))) rs)
      as (s & rs' & Hs & Hlen & Hrest); [lia|].
    rewrite (rand_bind_Ok _ _ _ _ _ Hs). by exists s, rs'.
  - destruct (random_sample_total data k rs)
      as (s & rs' & Hs & Hlen & Hrest); [lia|].
    rewrite (rand_bind_Ok _ _ _ _ _ Hs). exists s, rs'.
    split_and!; [done|lia|done].
Qed.

(** C4 (leaf selection).  On a leaf of [n] rows the recommender returns
    exactly one slot, for every state of the random generator.  With
    [n >= k] the slot holds [k] rows drawn from [k] different positions
    of the leaf (so [k] distinct rows when the rows of the leaf are
    distinct) and no index is reported incomplete; with [n < k] the slot
    is a rearrangement of the whole leaf and the incomplete indexes are
    exactly [[0]]. *)
Theorem leaf_selection (data : list record) (original_dataset : list record)
    (current_level k : Z) (rs : list nat) :
  (0 ≤ k)%Z →
  ∃ s incomplete_indexes rs',
    content_filter_recommendations_from_grouped_data (Leaf data)
      original_dataset current_level k rs
    = Ok (([s], incomplete_indexes), rs')
    ∧ ((k ≤ Z.of_nat (length data))%Z →
         Z.of_nat (length s) = k
         ∧ (∃ rest, s ++ rest ≡ₚ data)
         ∧ (NoDup data → NoDup s)
         ∧ incomplete_indexes = [])
    ∧ ((Z.of_nat (length data) < k)%Z →
         s ≡ₚ data ∧ incomplete_indexes = [0]).
Proof.
  intros Hk.
  destruct (leaf_spec data original_dataset current_level k rs Hk)
    as (s & rs' & Hrun & Hlen & rest & Hperm).
  exists s, (if (Z.of_nat (length data) <? k)%Z then [0] else []), rs'.
  split_and!; [done| |].
  - intros Hge. destruct (Z.of_nat (length data) <? k)%Z eqn:Hlt;
      [apply Z.ltb_lt in Hlt; lia|].
    split_and!; [lia|by exists rest| |done].
    intros Hnd. rewrite <-Hperm in Hnd. by apply NoDup_app in Hnd as [? _].
  - intros Hlt. apply Z.ltb_lt in Hlt as Hlt'. rewrite Hlt'. split; [|done].
    assert (rest = []) as ->.
    { apply Permutation_length in Hperm. rewrite length_app in Hperm.
      apply length_zero_iff_nil. lia. }
    by rewrite (right_id_L [] (++)) in Hperm.
Qed.

Lemma leaf_selection_witness :
  ∃ s incomplete_indexes rs',
    content_filter_recommendations_from_grouped_data
      (Leaf (brand_of "P" 1)) five_brands 2 4 [3; 1; 0; 2]
    = Ok (([s], incomplete_indexes), rs')
    ∧ ((4 ≤ Z.of_nat (length (brand_of "P" 1)))%Z →
         Z.of_nat (length s) = 4%Z
         ∧ (∃ rest, s ++ rest ≡ₚ brand_of "P" 1)
         ∧ (NoDup (brand_of "P" 1) → NoDup s)
         ∧ incomplete_indexes = [])
    ∧ ((Z.of_nat (length (brand_of "P" 1)) < 4)%Z →
         s ≡ₚ brand_of "P" 1 ∧ incomplete_indexes = [0]).
Proof. apply leaf_selection. lia. Defined.

(** ** Growing slots *)

Lemma grown_refl src d : grown src d d.
Proof.
  apply Forall_Forall2_diag, Forall_true. intros o. exists [].
  by rewrite (right_id_L [] (++)).
Qed.

Lemma grown_trans src a b c : grown src a b → grown src b c → grown src a c.
Proof.
  intros Hab. revert c.
  induction Hab as [|o n a b (e1 & -> & H1) _ IH]; intros c Hbc.
  - done.
  - unfold grown in Hbc.
    apply Forall2_cons_inv_l in Hbc as (n' & c' & (e2 & -> & H2) & Hbc & ->).
    constructor; [|by apply IH]. exists (e1 ++ e2).
    split; [by rewrite (assoc_L (++))|]. by apply Forall_app.
Qed.

Lemma grown_impl (src src' : record → Prop) a b :
  (∀ r, src r → src' r) → grown src a b → grown src' a b.
Proof.
  intros Himpl Hab. eapply Forall2_impl; [apply Hab|].
  intros o n (e & -> & He). exists e. split; [done|].
  by eapply Forall_impl.
Qed.

Lemma grown_length src a b : grown src a b → length b = length a.
Proof. intros H. symmetry. by eapply Forall2_length. Qed.

Lemma grown_Forall (R : record → Prop) src a b :
  (∀ r, src r → R r) → grown src a b →
  Forall (Forall R) a → Forall (Forall R) b.
Proof.
  intros Himpl Hab. induction Hab as [|o n a b (e & -> & He) _ IH];
    [done|].
  intros [Ho Ha]%Forall_cons_1. constructor; [|by apply IH].
  apply Forall_app. split; [done|]. by eapply Forall_impl.
Qed.

Lemma grown_nonempty src a b :
  grown src a b → Forall (λ s, s ≠ []) a → Forall (λ s, s ≠ []) b.
Proof.
  intros Hab. induction Hab as [|o n a b (e & -> & He) _ IH]; [done|].
  intros [Ho Ha]%Forall_cons_1. constructor; [|by apply IH].
  by destruct o.
Qed.

Lemma grown_insert (src : record → Prop) a i s x :
  a !! i = Some s → src x → grown src a (<[i := s ++ [x]]> a).
Proof.
  intros Hi Hx. rewrite <-(list_insert_id a i s) at 1 by done.
  apply Forall2_insert; [apply grown_refl|].
  exists [x]. split; [done|]. by constructor.
Qed.

Lemma elem_of_mjoin_Forall (R : record → Prop) (d : list slot) r :
  Forall (Forall R) d → r ∈ mjoin d → R r.
Proof.
  intros Hd (s & Hr & Hs)%list_elem_of_join.
  by eapply (proj1 (Forall_forall _ _)); [eapply (proj1 (Forall_forall _ _))|].
Qed.

Lemma Forall_mjoin_self (d : list slot) :
  Forall (Forall (λ r, r ∈ mjoin d)) d.
Proof.
  apply Forall_forall. intros s Hs. apply Forall_forall. intros r Hr.
  apply list_elem_of_join. eauto.
Qed.

(** ** The fallback pass *)

Lemma append_at_Ok dataset index s x rs :
  dataset !! index = Some s →
  append_at dataset index x rs = Ok (<[index := s ++ [x]]> dataset, rs).
Proof. unfold append_at. by intros ->. Qed.

Lemma range_size_Ok dataset index s k rs :
  dataset !! index = Some s →
  range_size dataset index k rs
  = Ok (Z.to_nat (k - Z.of_nat (length s)), rs).
Proof. unfold range_size. by intros ->. Qed.

Lemma peer_fill_spec n index dataset s rs :
  Forall (λ s, s ≠ []) dataset →
  dataset !! index = Some s →
  ∃ d' rs' s',
    peer_fill n index dataset rs = Ok (d', rs')
    ∧ grown (λ r, r ∈ mjoin dataset) dataset d'
    ∧ d' !! index = Some s' ∧ length s' = length s + n
    ∧ (∀ j, j ≠ index → d' !! j = dataset !! j).
Proof.
  revert dataset s rs. induction n as [|n IH]; intros dataset s rs Hne Hs.
  - exists dataset, rs, s. split_and!; [done|apply grown_refl|done|lia|done].
  - cbn [peer_fill].
    destruct (random_choice_total dataset rs) as (s0 & rs1 & Hc1 & Hs0).
    { intros ->. by rewrite lookup_nil in Hs. }
    rewrite (rand_bind_Ok _ _ _ _ _ Hc1).
    destruct (random_choice_total s0 rs1) as (x & rs2 & Hc2 & Hx).
    { by apply (proj1 (Forall_forall _ _) Hne). }
    rewrite (rand_bind_Ok _ _ _ _ _ Hc2).
    rewrite (rand_bind_Ok _ _ _ _ _ (append_at_Ok _ _ _ x rs2 Hs)).
    assert (x ∈ mjoin dataset) as Hxin by (apply list_elem_of_join; eauto).
    pose proof (grown_insert (λ r, r ∈ mjoin dataset) _ _ _ x Hs Hxin) as Hg1.
    apply lookup_lt_Some in Hs as Hlt.
    destruct (IH (<[index := s ++ [x]]> dataset) (s ++ [x]) rs2)
      as (d' & rs' & s' & Hrun & Hg & Hs' & Hlen & Hother).
    { eapply grown_nonempty; [apply Hg1|done]. }
    { by apply list_lookup_insert_eq. }
    exists d', rs', s'. split_and!; [done| |done| |].
    + eapply grown_trans; [apply Hg1|]. eapply grown_impl; [|apply Hg].
      intros r Hr.
      apply (elem_of_mjoin_Forall (λ r, r ∈ mjoin dataset)
               (<[index := s ++ [x]]> dataset)); [|done].
      apply (grown_Forall _ _ _ _ (λ r H, H) Hg1), Forall_mjoin_self.
    + rewrite Hlen, length_app. simpl. lia.
    + intros j Hj. rewrite Hother by done. by apply list_lookup_insert_ne.
Qed.

Lemma global_fill_spec original_dataset n index dataset s rs :
  original_dataset ≠ [] →
  dataset !! index = Some s →
  ∃ d' rs' s',
    global_fill original_dataset n index dataset rs = Ok (d', rs')
    ∧ grown (λ r, r ∈ original_dataset) dataset d'
    ∧ d' !! index = Some s' ∧ length s' = length s + n
    ∧ (∀ j, j ≠ index → d' !! j = dataset !! j).
Proof.
  intros Hpool. revert dataset s rs.
  induction n as [|n IH]; intros dataset s rs Hs.
  - exists dataset, rs, s. split_and!; [done|apply grown_refl|done|lia|done].
  - cbn [global_fill].
    destruct (random_choice_total original_dataset rs Hpool)
      as (x & rs1 & Hc & Hx).
    rewrite (rand_bind_Ok _ _ _ _ _ Hc).
    rewrite (rand_bind_Ok _ _ _ _ _ (append_at_Ok _ _ _ x rs1 Hs)).
    pose proof (grown_insert (λ r, r ∈ original_dataset) _ _ _ x Hs Hx) as Hg1.
    apply lookup_lt_Some in Hs as Hlt.
    destruct (IH (<[index := s ++ [x]]> dataset) (s ++ [x]) rs1)
      as (d' & rs' & s' & Hrun & Hg & Hs' & Hlen & Hother).
    { by apply list_lookup_insert_eq. }
    exists d', rs', s'. split_and!; [done| |done| |].
    + by eapply grown_trans.
    + rewrite Hlen, length_app. simpl. lia.
    + intros j Hj. rewrite Hother by done. by apply list_lookup_insert_ne.
Qed.

Lemma filled_nil k d : filled k [] d d.
Proof.
  intros i o n Ho Hn. rewrite Ho in Hn. injection Hn as <-.
  split; [by intros ?%elem_of_nil|done].
Qed.

Lemma filled_step k index rest d d1 d' s s1 :
  d !! index = Some s → d1 !! index = Some s1 →
  length s1 = length s + Z.to_nat (k - Z.of_nat (length s)) →
  (∀ j, j ≠ index → d1 !! j = d !! j) →
  filled k rest d1 d' → filled k (index :: rest) d d'.
Proof.
  intros Hs Hs1 Hlen Hother Hfill i o n Ho Hn.
  destruct (decide (i = index)) as [->|Hne].
  - rewrite Hs in Ho. injection Ho as <-.
    destruct (Hfill index s1 n Hs1 Hn) as [Hin Hout].
    split; [|intros []; apply list_elem_of_here].
    intros _. destruct (decide (index ∈ rest)) as [Hr|Hr].
    + rewrite (Hin Hr). lia.
    + rewrite (Hout Hr). lia.
  - rewrite <-Hother in Ho by done.
    destruct (Hfill i o n Ho Hn) as [Hin Hout]. split.
    + intros [?|?]%elem_of_cons; [done|by apply Hin].
    + intros Hni. apply Hout. intros ?. apply Hni.
      by apply list_elem_of_further.
Qed.

Lemma finish_loop_peer original_dataset current_level k n_inc todo dataset rs :
  (k ≤ Z.of_nat (length dataset) - Z.of_nat n_inc)%Z →
  Forall (λ s, s ≠ []) dataset →
  Forall (λ i, i < length dataset) todo →
  ∃ d' rs',
    finish_loop original_dataset current_level k n_inc todo dataset rs
    = Ok ((d', true), rs')
    ∧ grown (λ r, r ∈ mjoin dataset) dataset d'
    ∧ filled k todo dataset d'.
Proof.
  revert dataset rs. induction todo as [|index rest IH];
    intros dataset rs Hcond Hne Htodo.
  - exists dataset, rs. split_and!; [done|apply grown_refl|apply filled_nil].
  - cbn [finish_loop]. rewrite (proj2 (Z.leb_le _ _) Hcond).
    apply Forall_cons_1 in Htodo as [Hlt Hrest].
    destruct (lookup_lt_is_Some_2 dataset index Hlt) as [s Hs].
    rewrite (rand_bind_Ok _ _ _ _ _ (range_size_Ok _ _ _ k rs Hs)).
    destruct (peer_fill_spec (Z.to_nat (k - Z.of_nat (length s))) index
                dataset s rs Hne Hs)
      as (d1 & rs1 & s1 & Hrun1 & Hg1 & Hs1 & Hlen1 & Hother).
    rewrite (rand_bind_Ok _ _ _ _ _ Hrun1).
    pose proof (grown_length _ _ _ Hg1) as Hl1.
    destruct (IH d1 rs1) as (d' & rs' & Hrun & Hg & Hfill).
    { by rewrite Hl1. }
    { by eapply grown_nonempty. }
    { by rewrite Hl1. }
    exists d', rs'. split_and!; [done| |by eapply filled_step].
    eapply grown_trans; [apply Hg1|]. eapply grown_impl; [|apply Hg].
    intros r Hr.
    apply (elem_of_mjoin_Forall (λ r, r ∈ mjoin dataset) d1); [|done].
    apply (grown_Forall _ _ _ _ (λ r H, H) Hg1), Forall_mjoin_self.
Qed.

Lemma finish_loop_global original_dataset k n_inc todo dataset rs :
  ¬ (k ≤ Z.of_nat (length dataset) - Z.of_nat n_inc)%Z →
  original_dataset ≠ [] →
  Forall (λ i, i < length dataset) todo →
  ∃ d' rs',
    finish_loop original_dataset 0 k n_inc todo dataset rs
    = Ok ((d', true), rs')
    ∧ grown (λ r, r ∈ original_dataset) dataset d'
    ∧ filled k todo dataset d'.
Proof.
  intros Hcond Hpool. revert dataset rs Hcond.
  induction todo as [|index rest IH]; intros dataset rs Hcond Htodo.
  - exists dataset, rs. split_and!; [done|apply grown_refl|apply filled_nil].
  - cbn [finish_loop]. rewrite (proj2 (Z.leb_nle _ _) Hcond).
    change (0 =? 0)%Z with true. cbv iota.
    apply Forall_cons_1 in Htodo as [Hlt Hrest].
    destruct (lookup_lt_is_Some_2 dataset index Hlt) as [s Hs].
    rewrite (rand_bind_Ok _ _ _ _ _ (range_size_Ok _ _ _ k rs Hs)).
    destruct (global_fill_spec original_dataset
                (Z.to_nat (k - Z.of_nat (length s))) index dataset s rs
                Hpool Hs)
      as (d1 & rs1 & s1 & Hrun1 & Hg1 & Hs1 & Hlen1 & Hother).
    rewrite (rand_bind_Ok _ _ _ _ _ Hrun1).
    pose proof (grown_length _ _ _ Hg1) as Hl1.
    destruct (IH d1 rs1) as (d' & rs' & Hrun & Hg & Hfill).
    { by rewrite Hl1. }
    { by rewrite Hl1. }
    exists d', rs'. split_and!; [done| |by eapply filled_step].
    by eapply grown_trans.
Qed.

Lemma finish_loop_defer original_dataset current_level k n_inc todo dataset rs :
  ¬ (k ≤ Z.of_nat (length dataset) - Z.of_nat n_inc)%Z →
  current_level ≠ 0%Z →
  finish_loop original_dataset current_level k n_inc todo dataset rs
  = Ok ((dataset, match todo with [] => true | _ => false end), rs).
Proof.
  intros Hcond Hlevel. destruct todo as [|index rest]; [done|].
  cbn [finish_loop]. rewrite (proj2 (Z.leb_nle _ _) Hcond).
  by rewrite (proj2 (Z.eqb_neq _ _) Hlevel).
Qed.

(** The fallback pass returns for every state of the generator.  It only
    appends rows, taken from the slots of the batch or, at the outermost
    level, from the original dataset; it either fills every incomplete
    slot and reports none, or changes nothing (below the outermost
    level, when fewer than [k] slots are complete). *)
Lemma finish_incomplete_spec original_dataset current_level k dataset inc rs :
  Forall (λ s, s ≠ []) dataset →
  Forall (λ i, i < length dataset) inc →
  original_dataset ≠ [] ∨ current_level ≠ 0%Z →
  ∃ d' inc' rs',
    finish_incomplete original_dataset current_level k dataset inc rs
    = Ok ((d', inc'), rs')
    ∧ grown (λ r, r ∈ mjoin dataset
                  ∨ (current_level = 0%Z ∧ r ∈ original_dataset)) dataset d'
    ∧ ((inc' = [] ∧ filled k inc dataset d') ∨ (inc' = inc ∧ d' = dataset))
    ∧ (current_level = 0%Z → inc' = [])
    ∧ ((k ≤ Z.of_nat (length dataset) - Z.of_nat (length inc))%Z →
       inc' = [] ∧ grown (λ r, r ∈ mjoin dataset) dataset d').
Proof.
  intros Hne Hinc Hpool. unfold finish_incomplete.
  destruct (decide (k ≤ Z.of_nat (length dataset) - Z.of_nat (length inc))%Z)
    as [Hcond|Hcond]; [|destruct (decide (current_level = 0%Z)) as [->|Hlevel]].
  - destruct (finish_loop_peer original_dataset current_level k (length inc)
                inc dataset rs Hcond Hne Hinc) as (d' & rs' & Hrun & Hg & Hf).
    rewrite (rand_bind_Ok _ _ _ _ _ Hrun). exists d', [], rs'.
    split_and!; [done| |by left|done|done].
    eapply grown_impl; [|apply Hg]. by left.
  - destruct Hpool as [Hpool|]; [|done].
    destruct (finish_loop_global original_dataset k (length inc)
                inc dataset rs Hcond Hpool Hinc) as (d' & rs' & Hrun & Hg & Hf).
    rewrite (rand_bind_Ok _ _ _ _ _ Hrun). exists d', [], rs'.
    split_and!; [done| |by left|done|done].
    eapply grown_impl; [|apply Hg]. by right.
  - rewrite (rand_bind_Ok _ _ _ _ _
               (finish_loop_defer original_dataset current_level k
                  (length inc) inc dataset rs Hcond Hlevel)).
    destruct inc as [|index rest].
    + exists dataset, [], rs.
      split_and!; [done|apply grown_refl| |done|done].
      left. split; [done|apply filled_nil].
    + exists dataset, (index :: rest), rs.
      split_and!; [done|apply grown_refl|by right|done|done].
Qed.

(** C5 (peer-borrowing source), as the code has it.  When the
    peer-borrowing fallback fires (the number of slots minus the number of
    incomplete indexes is at least [k]), the pass returns with no index
    left incomplete, and every row it appends to a slot is a row that one
    of the slots of the batch already held when the pass started: the
    code draws from [random.choice(dataset)], any slot of the batch,
    complete or not, the slot being filled included. *)
Theorem peer_borrowing_sources (original_dataset : list record)
    (current_level k : Z) (dataset : list slot) (incomplete_indexes : list nat)
    (rs : list nat) :
  (k ≤ Z.of_nat (length dataset) - Z.of_nat (length incomplete_indexes))%Z →
  Forall (λ s, s ≠ []) dataset →
  Forall (λ i, i < length dataset) incomplete_indexes →
  ∃ dataset' rs',
    finish_incomplete original_dataset current_level k dataset
      incomplete_indexes rs
    = Ok ((dataset', []), rs')
    ∧ grown (λ r, r ∈ mjoin dataset) dataset dataset'.
Proof.
  intros Hcond Hne Hinc. unfold finish_incomplete.
  destruct (finish_loop_peer original_dataset current_level k
              (length incomplete_indexes) incomplete_indexes dataset rs
              Hcond Hne Hinc) as (d' & rs' & Hrun & Hg & _).
  rewrite (rand_bind_Ok _ _ _ _ _ Hrun). by exists d', rs'.
Qed.

Lemma peer_borrowing_sources_witness :
  ∃ dataset' rs',
    finish_incomplete five_brands 1 4 four_complete_one_short [4]
      [4; 0; 4; 0; 4; 0]
    = Ok ((dataset', []), rs')
    ∧ grown (λ r, r ∈ mjoin four_complete_one_short)
        four_complete_one_short dataset'.
Proof.
  apply peer_borrowing_sources.
  - simpl. lia.
  - repeat constructor; done.
  - repeat constructor; simpl; lia.
Defined.

(** C5, the claim as stated, fails.  With four complete slots and the
    one-row slot of brand T, the pass can pick the slot it is filling
    three times: the slot ends as four copies of its own row, a row that
    no other slot holds. *)
Lemma peer_borrowing_counterexample :
  ∃ dataset' rs',
    finish_incomplete five_brands 1 4 four_complete_one_short [4]
      [4; 0; 4; 0; 4; 0]
    = Ok ((dataset', []), rs')
    ∧ dataset' !! 4 = Some (replicate 4 (product 17 "A" "T"))
    ∧ ¬ taken_from_other_slots four_complete_one_short dataset'.
Proof.
  eexists _, _. split_and!; [by vm_compute|done|].
  intros H.
  destruct (H 4 [product 17 "A" "T"] (replicate 3 (product 17 "A" "T"))
              (product 17 "A" "T"))
    as (j & s & Hj & Hs & Hin); [done|done|apply list_elem_of_here|].
  do 5 (destruct j as [|j]; [try done; injection Hs as <-;
    repeat (apply elem_of_cons in Hin as [Hin|Hin]; [done|]);
    by apply elem_of_nil in Hin|]).
  done.
Qed.

(** The same state arises in a run of the script's calls: grouped by
    category and brand, the five brands form one node at level 1, where
    the peer-borrowing fallback fills the slot of brand T from itself. *)
Example peer_borrowing_in_a_run :
  ∃ grouped rs',
    group_data_by_unique_identifiers five_brands script_index_list = Ok grouped
    ∧ content_filter_recommendations_from_grouped_data grouped five_brands 0 4
        (replicate 17 0 ++ [4; 0; 4; 0; 4; 0])
      = Ok ((take 4 four_complete_one_short
               ++ [replicate 4 (product 17 "A" "T")], []), rs').
Proof. eexists _, _. split; by vm_compute. Qed.

(** ** Batches *)

Lemma batch_inv_nil src : batch_inv src 0 [] [].
Proof. split_and!; [done|constructor|constructor|]. by intros i s ?. Qed.

Lemma batch_inv_impl (src src' : record → Prop) n dataset inc :
  (∀ r, src r → src' r) → batch_inv src n dataset inc →
  batch_inv src' n dataset inc.
Proof.
  intros Himpl (Hlen & Hinc & Hslots & Hfull). split_and!; [done..| |done].
  eapply Forall_impl; [apply Hslots|]. intros s (? & ? & Hs).
  split_and!; [done..|]. by eapply Forall_impl.
Qed.

Lemma batch_inv_app src n m dataset inc res incd :
  batch_inv src n dataset inc → batch_inv src m res incd →
  batch_inv src (n + m) (dataset ++ res) (inc ++ ((λ x, x + n) <$> incd)).
Proof.
  intros (Hlen & Hinc & Hslots & Hfull) (Hlen' & Hinc' & Hslots' & Hfull').
  split_and!.
  - rewrite length_app. lia.
  - apply Forall_app. split.
    + eapply Forall_impl; [apply Hinc|]. simpl. lia.
    + apply Forall_fmap. eapply Forall_impl; [apply Hinc'|]. simpl. lia.
  - by apply Forall_app.
  - intros i s Hi Hni. apply not_elem_of_app in Hni as [Hni1 Hni2].
    apply lookup_app_Some in Hi as [Hi|[Hge Hi]]; [by eapply Hfull|].
    eapply Hfull'; [apply Hi|]. intros Hin. apply Hni2.
    apply list_elem_of_fmap. exists (i - length dataset). split; [lia|done].
Qed.

Lemma unpack_spec (rec : tree → Rand (list slot * list nat)) src items :
  Forall (λ kv, ∀ rs, ∃ res incd rs',
            rec kv.2 rs = Ok ((res, incd), rs')
            ∧ batch_inv src (leaf_count kv.2) res incd) items →
  ∀ dataset inc n rs,
    batch_inv src n dataset inc →
    ∃ dataset' inc' rs',
      unpack rec items dataset inc n rs = Ok ((dataset', inc'), rs')
      ∧ batch_inv src (n + sum_list ((λ kv, leaf_count kv.2) <$> items))
          dataset' inc'.
Proof.
  induction 1 as [|[key v] items Hv _ IH]; intros dataset inc n rs Hinv.
  - exists dataset, inc, rs. simpl. by rewrite Nat.add_0_r.
  - cbn [unpack]. destruct (Hv rs) as (res & incd & rs1 & Hrun & Hres).
    simpl in Hrun, Hres. rewrite (rand_bind_Ok _ _ _ _ _ Hrun). cbv beta iota.
    assert (length res = leaf_count v) as Hlen by apply Hres.
    destruct (IH (dataset ++ res) (inc ++ ((λ x, x + n) <$> incd))
                 (n + length res) rs1)
      as (dataset' & inc' & rs' & Hrun' & Hinv').
    { rewrite Hlen. by apply batch_inv_app. }
    exists dataset', inc', rs'. split; [done|].
    rewrite fmap_cons. simpl. rewrite Hlen in Hinv'.
    by rewrite Nat.add_assoc.
Qed.

Lemma tree_records_child items key v r :
  (key, v) ∈ items → r ∈ tree_records v → r ∈ tree_records (Node items).
Proof.
  intros Hin Hr. simpl. apply list_elem_of_join. exists (tree_records v).
  split; [done|]. apply list_elem_of_fmap. by exists (key, v).
Qed.

(** Filling keeps the invariant of a batch when the amount is the
    default one. *)
Lemma finish_batch_inv (src src' : record → Prop) n dataset inc d' inc' :
  batch_inv src n dataset inc →
  (∀ r, src r → src' r) →
  grown src' dataset d' →
  (inc' = [] ∧ filled 4 inc dataset d') ∨ (inc' = inc ∧ d' = dataset) →
  batch_inv src' n d' inc'.
Proof.
  intros Hinv Himpl Hg [[-> Hfill]|[-> ->]]; [|by eapply batch_inv_impl].
  destruct Hinv as (Hlen & Hinc & Hslots & Hfull).
  assert (∀ i s, d' !! i = Some s → length s = 4) as Hfour.
  { intros i s Hs. apply lookup_lt_Some in Hs as Hlt.
    rewrite (grown_length _ _ _ Hg) in Hlt.
    destruct (lookup_lt_is_Some_2 dataset i Hlt) as [o Ho].
    destruct (Hfill i o s Ho Hs) as [Hin Hout].
    destruct (decide (i ∈ inc)) as [Hi|Hi].
    - apply Hin in Hi.
      assert (length o ≤ 4)
        by (by eapply (proj1 (Forall_lookup _ _) Hslots i o)).
      lia.
    - rewrite (Hout Hi). by eapply Hfull. }
  split_and!.
  - by rewrite (grown_length _ _ _ Hg).
  - constructor.
  - apply Forall_lookup. intros i s Hs. split_and!.
    + apply Hfour in Hs. by destruct s.
    + by rewrite (Hfour _ _ Hs).
    + revert i s Hs. apply Forall_lookup.
      eapply (grown_Forall src' src'); [done|apply Hg|].
      eapply Forall_impl; [apply Hslots|]. intros s (_ & _ & Hs).
      by eapply Forall_impl.
  - intros i s Hs _. by eapply Hfour.
Qed.

(** ** The recommender on a tree *)

Lemma tree_ind' (P : tree → Prop) :
  (∀ data, P (Leaf data)) →
  (∀ items, Forall (λ kv, P kv.2) items → P (Node items)) →
  ∀ t, P t.
Proof.
  intros Hleaf Hnode. fix IH 1. intros [data|items]; [apply Hleaf|].
  apply Hnode. induction items as [|[key v] items IHitems]; constructor.
  - apply IH.
  - apply IHitems.
Qed.

(** A call on a dict: it returns for every state of the generator and
    every amount [k]; there is one slot per leaf below the node; the rows
    of the slots come from these leaves (at the outermost level also from
    the original dataset); at the outermost level no index is left
    incomplete. *)
Lemma node_spec items original_dataset current_level k rs :
  Forall (λ kv, default_spec kv.2) items →
  (0 ≤ current_level)%Z →
  original_dataset ≠ [] ∨ (0 < current_level)%Z →
  ∃ slots inc rs',
    content_filter_recommendations_from_grouped_data (Node items)
      original_dataset current_level k rs
    = Ok ((slots, inc), rs')
    ∧ length slots = leaf_count (Node items)
    ∧ Forall (Forall (row_source (Node items) original_dataset current_level))
        slots
    ∧ (current_level = 0%Z → inc = [])
    ∧ (k = default_recommendation_amount →
       batch_inv (row_source (Node items) original_dataset current_level)
         (leaf_count (Node items)) slots inc).
Proof.
  intros Hchildren Hlevel Hpool.
  cbn [content_filter_recommendations_from_grouped_data].
  set (src := λ r : record, r ∈ tree_records (Node items)).
  destruct (unpack_spec
              (λ v, content_filter_recommendations_from_grouped_data v
                      original_dataset (current_level + 1)
                      default_recommendation_amount)
              src items) with (dataset := @nil slot) (inc := @nil nat)
              (n := 0) (rs := rs)
    as (dataset & inc & rs1 & Hrun & Hinv).
  { apply Forall_forall. intros [key v] Hin rs0.
    apply (proj1 (Forall_forall _ _) Hchildren) in Hin as Hv. simpl in Hv.
    destruct (Hv original_dataset (current_level + 1)%Z rs0)
      as (res & incd & rs' & Hres & Hbatch); [lia|right; lia|].
    exists res, incd, rs'. split; [done|].
    eapply batch_inv_impl; [|apply Hbatch].
    intros r [Hr|[? _]]; [|lia]. by eapply tree_records_child. }
  { apply batch_inv_nil. }
  rewrite (rand_bind_Ok _ _ _ _ _ Hrun). cbv beta iota.
  destruct Hinv as (Hlen & Hinc & Hslots & Hfull).
  destruct (finish_incomplete_spec original_dataset current_level k
              dataset inc rs1)
    as (d' & inc' & rs' & Hfin & Hg & Hcases & Htop & _).
  { eapply Forall_impl; [apply Hslots|]. by intros s (? & _). }
  { by rewrite Hlen. }
  { destruct Hpool; [by left|right; lia]. }
  assert (∀ r, r ∈ mjoin dataset
               ∨ current_level = 0%Z ∧ r ∈ original_dataset →
               row_source (Node items) original_dataset current_level r)
    as Hsrc.
  { intros r [Hr|Hr]; [left|by right].
    apply (elem_of_mjoin_Forall src dataset); [|done].
    eapply Forall_impl; [apply Hslots|]. by intros s (_ & _ & ?). }
  assert (∀ r, src r →
               row_source (Node items) original_dataset current_level r)
    as Hsrc' by (by left).
  exists d', inc', rs'. split_and!; [done| | |done|].
  - by rewrite (grown_length _ _ _ Hg), Hlen.
  - eapply grown_Forall; [apply Hsrc|apply Hg|].
    eapply Forall_impl; [apply Hslots|]. intros s (_ & _ & Hs).
    by eapply Forall_impl.
  - intros ->. eapply (finish_batch_inv src); [|done| |done].
    + by split_and!.
    + eapply grown_impl; [apply Hsrc|apply Hg].
Qed.

Lemma default_spec_holds t : leaves_nonempty t → default_spec t.
Proof.
  induction t as [data|items IH] using tree_ind'; intros Hne.
  - inversion_clear Hne as [? Hdata|].
    intros original_dataset current_level rs _ _.
    destruct (leaf_spec data original_dataset current_level
                default_recommendation_amount rs)
      as (s & rs' & Hrun & Hlen & rest & Hperm); [done|].
    unfold default_recommendation_amount in *.
    eexists _, _, _. split; [apply Hrun|].
    assert (length data ≠ 0) by (by destruct data).
    split_and!; [done| | |].
    + case_match; [|constructor]. constructor; [simpl; lia|constructor].
    + constructor; [|constructor].
      split_and!; [intros ->; simpl in Hlen; lia|lia|].
      apply Forall_forall. intros r Hr. left. simpl. rewrite <-Hperm.
      apply elem_of_app. by left.
    + intros i s' Hs' Hi. destruct i; [|done]. injection Hs' as <-.
      destruct (Z.of_nat (length data) <? 4)%Z eqn:Hlt.
      * destruct Hi. apply list_elem_of_here.
      * apply Z.ltb_ge in Hlt. lia.
  - inversion_clear Hne as [|? Hitems].
    intros original_dataset current_level rs Hlevel Hpool.
    destruct (node_spec items original_dataset current_level
                default_recommendation_amount rs)
      as (slots & inc & rs' & Hrun & _ & _ & _ & Hbatch); [|done..|].
    { apply Forall_forall. intros kv Hkv.
      apply (proj1 (Forall_forall _ _) IH kv Hkv).
      by apply (proj1 (Forall_forall _ _) Hitems kv Hkv). }
    exists slots, inc, rs'. split; [done|]. by apply Hbatch.
Qed.

(** Every call on a tree without empty leaves returns, with one slot per
    leaf and rows from the leaves below (or the original dataset at the
    outermost level). *)
Lemma recommend_spec t original_dataset current_level k rs :
  leaves_nonempty t →
  (0 ≤ current_level)%Z →
  original_dataset ≠ [] ∨ (0 < current_level)%Z →
  (0 ≤ k)%Z →
  ∃ slots inc rs',
    content_filter_recommendations_from_grouped_data t original_dataset
      current_level k rs
    = Ok ((slots, inc), rs')
    ∧ length slots = leaf_count t
    ∧ Forall (Forall (row_source t original_dataset current_level)) slots.
Proof.
  intros Hne Hlevel Hpool Hk. destruct t as [data|items].
  - destruct (leaf_spec data original_dataset current_level k rs Hk)
      as (s & rs' & Hrun & Hlen & rest & Hperm).
    eexists _, _, _. split_and!; [apply Hrun|done|].
    constructor; [|constructor]. apply Forall_forall. intros r Hr. left. simpl.
    rewrite <-Hperm. apply elem_of_app. by left.
  - inversion_clear Hne as [|? Hitems].
    destruct (node_spec items original_dataset current_level k rs)
      as (slots & inc & rs' & Hrun & Hlen & Hrows & _); [|done..|].
    { eapply Forall_impl; [apply Hitems|]. intros kv. apply default_spec_holds. }
    by exists slots, inc, rs'.
Qed.

(** *** Lengths, for arbitrary trees *)

Lemma rand_ret_inv {A : Type} (a b : A) rs rs' :
  mret (M := Rand) a rs = Ok (b, rs') → a = b ∧ rs = rs'.
Proof. by intros [= -> ->]. Qed.

Lemma append_at_length dataset index x rs d' rs' :
  append_at dataset index x rs = Ok (d', rs') → length d' = length dataset.
Proof.
  unfold append_at. destruct (dataset !! index); [|done].
  intros [<- _]%rand_ret_inv. apply length_insert.
Qed.

Lemma peer_fill_length n index dataset rs d' rs' :
  peer_fill n index dataset rs = Ok (d', rs') → length d' = length dataset.
Proof.
  revert dataset rs. induction n as [|n IH]; intros dataset rs; simpl.
  - by intros [<- _]%rand_ret_inv.
  - intros (s & rs1 & _ & H)%rand_bind_inv.
    apply rand_bind_inv in H as (x & rs2 & _ & H).
    apply rand_bind_inv in H as (d1 & rs3 & Hd1 & H).
    apply IH in H. apply append_at_length in Hd1. congruence.
Qed.

Lemma global_fill_length original_dataset n index dataset rs d' rs' :
  global_fill original_dataset n index dataset rs = Ok (d', rs') →
  length d' = length dataset.
Proof.
  revert dataset rs. induction n as [|n IH]; intros dataset rs; simpl.
  - by intros [<- _]%rand_ret_inv.
  - intros (x & rs1 & _ & H)%rand_bind_inv.
    apply rand_bind_inv in H as (d1 & rs2 & Hd1 & H).
    apply IH in H. apply append_at_length in Hd1. congruence.
Qed.

Lemma finish_loop_length original_dataset current_level k n_inc todo dataset
    rs d' able rs' :
  finish_loop original_dataset current_level k n_inc todo dataset rs
  = Ok ((d', able), rs') →
  length d' = length dataset.
Proof.
  revert dataset rs. induction todo as [|index rest IH]; intros dataset rs;
    cbn [finish_loop].
  - by intros [[= <- _] _]%rand_ret_inv.
  - destruct (_ <=? _)%Z; [|destruct (_ =? _)%Z].
    + intros (n & rs1 & _ & H)%rand_bind_inv.
      apply rand_bind_inv in H as (d1 & rs2 & Hd1 & H).
      apply IH in H. apply peer_fill_length in Hd1. congruence.
    + intros (n & rs1 & _ & H)%rand_bind_inv.
      apply rand_bind_inv in H as (d1 & rs2 & Hd1 & H).
      apply IH in H. apply global_fill_length in Hd1. congruence.
    + by intros [[= <- _] _]%rand_ret_inv.
Qed.

Lemma finish_incomplete_length original_dataset current_level k dataset inc
    rs d' inc' rs' :
  finish_incomplete original_dataset current_level k dataset inc rs
  = Ok ((d', inc'), rs') →
  length d' = length dataset.
Proof.
  unfold finish_incomplete.
  intros ([d1 able] & rs1 & Hloop & H)%rand_bind_inv.
  apply rand_ret_inv in H as [[= <- _] _].
  by eapply finish_loop_length.
Qed.

Lemma unpack_length (rec : tree → Rand (list slot * list nat)) items :
  Forall (λ kv, ∀ rs res incd rs',
            rec kv.2 rs = Ok ((res, incd), rs') →
            length res = leaf_count kv.2) items →
  ∀ dataset inc n rs d' inc' rs',
    unpack rec items dataset inc n rs = Ok ((d', inc'), rs') →
    length d' = length dataset + sum_list ((λ kv, leaf_count kv.2) <$> items).
Proof.
  induction 1 as [|[key v] items Hv _ IH];
    intros dataset inc n rs d' inc' rs'; cbn [unpack].
  - intros [[= <- _] _]%rand_ret_inv. simpl. lia.
  - intros ([res incd] & rs1 & Hres & H)%rand_bind_inv.
    apply IH in H. apply Hv in Hres. simpl in Hres.
    rewrite H, length_app, fmap_cons. simpl. lia.
Qed.

(** Whenever a call returns, whatever the tree, the level, the amount
    and the state of the generator, it returns one slot per leaf list. *)
Lemma slot_count_of_result t :
  ∀ original_dataset current_level k rs slots inc rs',
    content_filter_recommendations_from_grouped_data t original_dataset
      current_level k rs
    = Ok ((slots, inc), rs') →
    length slots = leaf_count t.
Proof.
  induction t as [data|items IH] using tree_ind';
    intros original_dataset current_level k rs slots inc rs';
    cbn [content_filter_recommendations_from_grouped_data].
  - destruct (_ <? _)%Z; intros (s & rs1 & _ & H)%rand_bind_inv;
      by apply rand_ret_inv in H as [[= <- _] _].
  - intros ([dataset inc0] & rs1 & Hunpack & H)%rand_bind_inv.
    apply finish_incomplete_length in H. rewrite H.
    eapply unpack_length in Hunpack; [by rewrite Hunpack|].
    eapply Forall_impl; [apply IH|]. intros kv Hkv rs0 res incd rs0' Hres.
    by eapply Hkv.
Qed.

(** C10 (slot count).  Whatever the tree, the level, the amount and the
    random choices, a call that returns has produced exactly one slot per
    leaf list of the tree.  And the call does return on every tree
    without empty leaves (such are the trees the grouper builds), at every
    level from the outermost one downwards, when the original dataset is
    not empty and the amount is not negative. *)
Theorem slot_count_invariant (t : tree) (original_dataset : list record)
    (current_level k : Z) (rs : list nat) :
  (∀ slots incomplete_indexes rs',
     content_filter_recommendations_from_grouped_data t original_dataset
       current_level k rs
     = Ok ((slots, incomplete_indexes), rs') →
     length slots = leaf_count t)
  ∧ (leaves_nonempty t →
     original_dataset ≠ [] →
     (0 ≤ current_level)%Z →
     (0 ≤ k)%Z →
     ∃ slots incomplete_indexes rs',
       content_filter_recommendations_from_grouped_data t original_dataset
         current_level k rs
       = Ok ((slots, incomplete_indexes), rs')
       ∧ length slots = leaf_count t).
Proof.
  split; [apply slot_count_of_result|].
  intros Hne Hpool Hlevel Hk.
  destruct (recommend_spec t original_dataset current_level k rs)
    as (slots & inc & rs' & Hrun & Hlen & _); [done|done|by left|done|].
  by exists slots, inc, rs'.
Qed.

Lemma catalogue_tree_leaves : leaves_nonempty catalogue_tree.
Proof.
  constructor. constructor; [|constructor; [|constructor]]; simpl;
    (constructor; constructor; [|constructor]; simpl; by constructor).
Defined.

Lemma slot_count_invariant_witness :
  ∃ slots incomplete_indexes rs',
    content_filter_recommendations_from_grouped_data catalogue_tree catalogue
      0 4 [3; 1; 0; 2; 5; 7]
    = Ok ((slots, incomplete_indexes), rs')
    ∧ length slots = leaf_count catalogue_tree.
Proof.
  destruct (proj2 (slot_count_invariant catalogue_tree catalogue 0 4
                     [3; 1; 0; 2; 5; 7]))
    as (slots & inc & rs' & Hrun & _);
    [apply catalogue_tree_leaves|done|lia|lia|].
  exists slots, inc, rs'. split; [done|].
  exact (proj1 (slot_count_invariant catalogue_tree catalogue 0 4
                  [3; 1; 0; 2; 5; 7]) slots inc rs' Hrun).
Defined.

(** The outermost call on a dict: it returns with no index left
    incomplete, one slot per leaf list, and every slot is [completed]. *)
Lemma outermost_fill items original_dataset k rs :
  Forall (λ kv, default_spec kv.2) items →
  original_dataset ≠ [] →
  ∃ slots rs',
    content_filter_recommendations_from_grouped_data (Node items)
      original_dataset 0 k rs
    = Ok ((slots, []), rs')
    ∧ length slots = leaf_count (Node items)
    ∧ Forall (completed k) slots.
Proof.
  intros Hchildren Hpool.
  cbn [content_filter_recommendations_from_grouped_data].
  destruct (unpack_spec
              (λ v, content_filter_recommendations_from_grouped_data v
                      original_dataset (0 + 1) default_recommendation_amount)
              (λ _, True) items) with (dataset := @nil slot)
              (inc := @nil nat) (n := 0) (rs := rs)
    as (batch & inc0 & rs1 & Hrun & Hinv).
  { apply Forall_forall. intros [key v] Hin rs0.
    apply (proj1 (Forall_forall _ _) Hchildren) in Hin as Hv. simpl in Hv.
    destruct (Hv original_dataset (0 + 1)%Z rs0)
      as (res & incd & rs' & Hres & Hbatch); [lia|right; lia|].
    exists res, incd, rs'. split; [done|].
    by eapply batch_inv_impl; [|apply Hbatch]. }
  { apply batch_inv_nil. }
  rewrite (rand_bind_Ok _ _ _ _ _ Hrun). cbv beta iota.
  destruct Hinv as (Hlen & Hinc & Hslots & Hfull).
  destruct (finish_incomplete_spec original_dataset 0 k batch inc0 rs1)
    as (slots & inc' & rs' & Hfin & Hg & Hcases & Htop & _).
  { eapply Forall_impl; [apply Hslots|]. by intros s (? & _). }
  { by rewrite Hlen. }
  { by left. }
  rewrite Htop in Hfin, Hcases by done. exists slots, rs'.
  pose proof (grown_length _ _ _ Hg) as Hlen'.
  split_and!; [done|by rewrite Hlen', Hlen|].
  assert (filled k inc0 batch slots) as Hfill.
  { destruct Hcases as [[_ ?]|[<- ->]]; [done|apply filled_nil]. }
  apply Forall_lookup. intros i s Hs.
  apply lookup_lt_Some in Hs as Hlt. rewrite Hlen' in Hlt.
  destruct (lookup_lt_is_Some_2 batch i Hlt) as [o Ho].
  destruct (Hfill i o s Ho Hs) as [Hin Hout].
  assert (o ≠ [] ∧ length o ≤ 4 ∧ Forall (λ _, True) o) as (Hne & Hle & _)
    by (by eapply (proj1 (Forall_lookup _ _) Hslots i o)).
  unfold completed, default_recommendation_amount.
  destruct (decide (i ∈ inc0)) as [Hi|Hi].
  - apply Hin in Hi. lia.
  - rewrite (Hout Hi). left. rewrite (Hfull i o Ho Hi). done.
Qed.

(** C3 (termination guarantee).  For every non-empty dataset, the call at
    level 0 on the tree the grouper built returns, whatever the amount
    [k] and the state of the random generator, and the list of incomplete
    indexes it returns is empty.  The list is empty because the slots
    have been completed, not because they were dropped: there is one slot
    per leaf list, and every slot either holds the default amount of
    rows (it was complete below level 0), or has been filled by a
    fallback up to exactly [k] rows, or was short and longer than [k]
    already.  With the default amount every slot holds exactly that
    amount. *)
Theorem termination_guarantee (dataset : list record) (index_list : list Z)
    (t : tree) (k : Z) (rs : list nat) :
  dataset ≠ [] →
  group_data_by_unique_identifiers dataset index_list = Ok t →
  ∃ slots rs',
    content_filter_recommendations_from_grouped_data t dataset 0 k rs
    = Ok ((slots, []), rs')
    ∧ length slots = leaf_count t
    ∧ Forall (completed k) slots
    ∧ (k = default_recommendation_amount →
       Forall (λ s, Z.of_nat (length s) = k) slots).
Proof.
  intros Hne Ht. apply group_inv in Ht as Hinv. destruct Hinv as [_ Hleaves].
  apply group_unfold in Ht as (d & items & _ & -> & _).
  inversion_clear Hleaves as [|? Hitems].
  destruct (outermost_fill items dataset k rs)
    as (slots & rs' & Hrun & Hlen & Hdone); [|done|].
  { eapply Forall_impl; [apply Hitems|]. intros kv. apply default_spec_holds. }
  exists slots, rs'. split_and!; [done..|].
  intros ->. eapply Forall_impl; [apply Hdone|].
  unfold completed, default_recommendation_amount. intros s. lia.
Qed.

Lemma termination_guarantee_witness :
  ∃ slots rs',
    content_filter_recommendations_from_grouped_data catalogue_tree catalogue
      0 4 [3; 1; 0; 2; 5; 7]
    = Ok ((slots, []), rs')
    ∧ length slots = leaf_count catalogue_tree
    ∧ Forall (completed 4) slots
    ∧ (4%Z = default_recommendation_amount →
       Forall (λ s, Z.of_nat (length s) = 4%Z) slots).
Proof. by apply (termination_guarantee catalogue script_index_list). Defined.

(** The fill at work: the one-row leaf of brand Y is reported incomplete
    below level 0 and comes back from level 0 with four rows. *)
Example termination_fills_short_slot :
  ∃ rs1 rs',
    content_filter_recommendations_from_grouped_data
      (Node [(VStr "Y", Leaf (drop 5 catalogue))]) catalogue 1 4 [5; 7]
    = Ok (([[product 6 "B" "Y"]], [0]), rs1)
    ∧ content_filter_recommendations_from_grouped_data catalogue_tree
        catalogue 0 4 [3; 1; 0; 2; 5; 7; 2; 9]
      = Ok (([[product 4 "A" "X"; product 2 "A" "X"; product 1 "A" "X";
               product 3 "A" "X"];
              [product 6 "B" "Y"; product 2 "A" "X"; product 3 "A" "X";
               product 4 "A" "X"]], []), rs').
Proof. eexists _, _. split; by vm_compute. Qed.

(** C1 (quota guarantee), as the code has it.  With the default amount,
    for every non-empty dataset of whatever size, the outermost call on
    the grouped tree returns and every slot of its batch holds exactly
    that amount of rows: a dataset smaller than the amount is no
    exception, since the global-random fallback draws with replacement. *)
Theorem quota_guarantee (dataset : list record) (index_list : list Z)
    (t : tree) (rs : list nat) :
  dataset ≠ [] →
  group_data_by_unique_identifiers dataset index_list = Ok t →
  ∃ slots rs',
    content_filter_recommendations_from_grouped_data t dataset 0
      default_recommendation_amount rs
    = Ok ((slots, []), rs')
    ∧ Forall (λ s, Z.of_nat (length s) = default_recommendation_amount) slots.
Proof.
  intros Hne Ht. apply group_inv in Ht as Hinv. destruct Hinv as [_ Hleaves].
  apply group_unfold in Ht as (d & items & _ & -> & _).
  inversion_clear Hleaves as [|? Hitems].
  destruct (node_spec items dataset 0 default_recommendation_amount rs)
    as (slots & inc & rs' & Hrun & _ & _ & Hinc & Hbatch); [|done|by left|].
  { eapply Forall_impl; [apply Hitems|]. intros kv. apply default_spec_holds. }
  rewrite Hinc in Hrun, Hbatch by done. exists slots, rs'. split; [done|].
  destruct (Hbatch eq_refl) as (_ & _ & _ & Hfull).
  apply Forall_lookup. intros i s Hs.
  rewrite (Hfull i s Hs); [done|]. by intros ?%elem_of_nil.
Qed.

Lemma quota_guarantee_witness :
  ∃ slots rs',
    content_filter_recommendations_from_grouped_data catalogue_tree catalogue
      0 default_recommendation_amount [3; 1; 0; 2; 5; 7]
    = Ok ((slots, []), rs')
    ∧ Forall (λ s, Z.of_nat (length s) = default_recommendation_amount) slots.
Proof. by apply (quota_guarantee catalogue script_index_list). Defined.

(** C1, the claim as stated, fails for a dataset smaller than the amount:
    a catalogue of one product and [k = 4] gives one slot of four rows,
    not of [min(4, 1) = 1]. *)
Lemma quota_counterexample :
  ∃ grouped slots rs',
    group_data_by_unique_identifiers [product 1 "A" "X"] script_index_list
      = Ok grouped
    ∧ content_filter_recommendations_from_grouped_data grouped
        [product 1 "A" "X"] 0 4 []
      = Ok ((slots, []), rs')
    ∧ slots = [replicate 4 (product 1 "A" "X")]
    ∧ ¬ Forall (λ s, length s = 4 `min` length [product 1 "A" "X"]) slots.
Proof.
  eexists _, _, _. split_and!; [by vm_compute..|done|].
  intros H. apply Forall_cons_1 in H as [H _]. simpl in H. lia.
Qed.

(** The amount given to the outermost call does not reach the calls
    below it: with [k = 5] the leaf of the five products of brand X is
    still sampled with the default amount, and its slot, being complete
    for the levels below, is not touched at level 0. *)
Example amount_not_forwarded :
  ∃ slots rs',
    content_filter_recommendations_from_grouped_data catalogue_tree catalogue
      0 5 []
    = Ok ((slots, []), rs')
    ∧ length <$> slots = [4; 5].
Proof. eexists _, _. split; by vm_compute. Qed.

(** C6 (priority preservation).  Take the node that the grouper built
    under the keys [ks], which the recommender visits at level
    [length ks].  Whatever the state of the random generator, when the
    call on that node returns, every row of every slot, so also every
    row the peer-borrowing fallback appended at that level, is a row
    of the leaves below the node and carries the keys [ks] at the first
    [length ks] indexes of the index list: the fallback has not crossed
    the boundary of a higher-priority attribute. *)
Theorem priority_preservation (dataset : list record) (index_list : list Z)
    (t : tree) (ks : list value) (t' : tree) (k : Z) (rs : list nat) :
  dataset ≠ [] →
  group_data_by_unique_identifiers dataset index_list = Ok t →
  subtree_at t ks = Some t' →
  (0 ≤ k)%Z →
  ∃ slots incomplete_indexes rs',
    content_filter_recommendations_from_grouped_data t' dataset
      (Z.of_nat (length ks)) k rs
    = Ok ((slots, incomplete_indexes), rs')
    ∧ Forall (Forall (λ r,
        r ∈ tree_records t'
        ∧ Forall2 (λ i key, py_index r i = Ok key)
            (take (length ks) index_list) ks)) slots.
Proof.
  intros Hne Ht Hsub Hk.
  destruct (group_subtree _ _ _ _ _ Ht Hsub) as [Hleaves Hkeys].
  destruct (recommend_spec t' dataset (Z.of_nat (length ks)) k rs)
    as (slots & inc & rs' & Hrun & _ & Hrows); [done|lia|by left|done|].
  exists slots, inc, rs'. split; [done|].
  eapply Forall_impl; [apply Hrows|]. intros s Hs.
  eapply Forall_impl; [apply Hs|]. intros r Hr.
  assert (r ∈ tree_records t') as Hin.
  { destruct Hr as [Hr|[Hlevel Hr]]; [done|].
    destruct ks; [|simpl in Hlevel; lia]. injection Hsub as <-.
    apply group_inv in Ht as [Hperm _]. by rewrite Hperm. }
  split; [done|].
  by apply (proj1 (Forall_forall _ _) Hkeys r Hin).
Qed.

Lemma priority_preservation_witness :
  ∃ slots incomplete_indexes rs',
    content_filter_recommendations_from_grouped_data five_brands_node
      five_brands (Z.of_nat (length [VStr "A"])) 4
      (replicate 17 0 ++ [0; 0; 1; 1; 2; 2])
    = Ok ((slots, incomplete_indexes), rs')
    ∧ Forall (Forall (λ r,
        r ∈ tree_records five_brands_node
        ∧ Forall2 (λ i key, py_index r i = Ok key)
            (take (length [VStr "A"]) script_index_list) [VStr "A"])) slots
    ∧ slots !! 4
      = Some [product 17 "A" "T"; product 1 "A" "P"; product 6 "A" "Q";
              product 11 "A" "R"].
Proof.
  destruct (priority_preservation five_brands script_index_list
              (Node [(VStr "A", five_brands_node)]) [VStr "A"]
              five_brands_node 4 (replicate 17 0 ++ [0; 0; 1; 1; 2; 2]))
    as (slots & inc & rs' & Hrun & Hrows); [done|by vm_compute|done|lia|].
  exists slots, inc, rs'. split_and!; [done|done|].
  vm_compute in Hrun. by injection Hrun as <- _ _.
Defined.

(** ** The exporter *)

Lemma products_loop_Err recommendation result_data e :
  products_loop recommendation result_data = Err e → e = IndexError.
Proof.
  revert result_data. induction recommendation as [|p rest IH];
    intros result_data; simpl; [done|].
  destruct (py_index p 0) as [pid|e'] eqn:Hp; simpl;
    [apply IH|intros [= <-]; by eapply py_index_Err].
Qed.

Lemma result_data_of_Err recommendation e :
  result_data_of recommendation = Err e → e = IndexError.
Proof.
  unfold result_data_of.
  destruct (py_index recommendation 0) as [first|e'] eqn:Hfirst; simpl;
    [apply products_loop_Err|intros [= <-]; by eapply py_index_Err].
Qed.

Lemma export_loop_cases recommendations stdout :
  export_loop recommendations stdout = Err IndexError
  ∨ export_loop recommendations stdout = Ok (stdout ++ recommendations).
Proof.
  revert stdout. induction recommendations as [|s rest IH]; intros stdout.
  - right. simpl. by rewrite (right_id_L [] (++)).
  - simpl. destruct (result_data_of s) as [row|e] eqn:Hrow; simpl.
    + destruct (IH (stdout ++ [s])) as [->| ->]; [by left|right].
      by rewrite <-(assoc_L (++)).
    + left. by apply result_data_of_Err in Hrow as ->.
Qed.

(** C7 (export shape) does not hold of the code.  The exporter has no
    [return] statement: whenever it does not raise, it hands back [None]
    and has printed every slot, whatever the batch; for the batch of the
    catalogue it computes the two rows one after the other and returns
    neither. *)
Theorem export_returns_none :
  (∀ data,
     content_filter_result_to_useful_SQL_dataset data = Err IndexError
     ∨ content_filter_result_to_useful_SQL_dataset data = Ok (PyNone, data.1))
  ∧ content_filter_result_to_useful_SQL_dataset (catalogue_batch, [])
    = Ok (PyNone, catalogue_batch)
  ∧ result_data_of <$> catalogue_batch
    = [Ok [VStr "A"; VStr "X"; VInt 1; VInt 2; VInt 3; VInt 4];
       Ok [VStr "B"; VStr "Y"; VInt 6; VInt 1; VInt 2; VInt 1]].
Proof.
  split_and!; [|done..].
  intros [slots inc]. unfold content_filter_result_to_useful_SQL_dataset.
  cbn [fst]. destruct (export_loop_cases slots []) as [->| ->];
    [by left|by right].
Qed.

(** In the script, the value bound to [dataset] and handed to
    [many_update_queries] is therefore [None]. *)
Example script_dataset_is_none :
  ∃ printed rs', script_dataset catalogue [] = Ok ((PyNone, printed), rs').
Proof. eexists _, _. by vm_compute. Qed.

(** ** The insert statement *)

(** C9 (column order of the bulk insert) does not hold of the code.  The
    table the script creates has the columns Category, Brand and rcmd_1
    to rcmd_4, and a row of the exporter would carry six values, but the
    insert statement the script builds names the two attribute columns
    only, with two placeholders. *)
Theorem script_insert_statement :
  script_query
  = Ok "INSERT INTO Content_filtered (Category, Brand) VALUES (%s, %s);"
  ∧ create_rcmd_table script_table_name script_unique_attributes
    = (["DROP TABLE IF EXISTS Content_filtered;";
        "CREATE TABLE Content_filtered(" +:+ newline
        +:+ "Category VARCHAR," +:+ newline
        +:+ "Brand VARCHAR," +:+ newline
        +:+ "rcmd_1 VARCHAR," +:+ newline
        +:+ "rcmd_2 VARCHAR," +:+ newline
        +:+ "rcmd_3 VARCHAR," +:+ newline
        +:+ "rcmd_4 VARCHAR," +:+ newline
        +:+ "PRIMARY KEY(Category, Brand)," +:+ newline
        +:+ "FOREIGN KEY(rcmd_1) REFERENCES Products(id)," +:+ newline
        +:+ "FOREIGN KEY(rcmd_2) REFERENCES Products(id)," +:+ newline
        +:+ "FOREIGN KEY(rcmd_3) REFERENCES Products(id)," +:+ newline
        +:+ "FOREIGN KEY(rcmd_4) REFERENCES Products(id)" +:+ newline
        +:+ ");"], None).
Proof. split; reflexivity. Qed.

(** * Further properties of the code *)

(** ** The SQL statements *)

Lemma string_app_assoc (s1 s2 s3 : string) :
  (s1 +:+ s2) +:+ s3 = s1 +:+ s2 +:+ s3.
Proof.
  induction s1 as [|a s1 IH]; [done|].
  change (String a s1 +:+ s2) with (String a (s1 +:+ s2)).
  change (String a (s1 +:+ s2) +:+ s3) with (String a ((s1 +:+ s2) +:+ s3)).
  by rewrite IH.
Qed.

Lemma string_app_empty_r (s : string) : s +:+ "" = s.
Proof.
  induction s as [|c s IH]; [done|].
  change (String c s +:+ "") with (String c (s +:+ "")). by rewrite IH.
Qed.

Lemma foldl_join sep (p x : string) (l : list string) :
  foldl (λ q var, q +:+ sep +:+ var) (p +:+ x) l = p +:+ join sep (x :: l).
Proof.
  revert p x. induction l as [|y l IH]; intros p x; [done|].
  cbn [foldl]. rewrite <-!string_app_assoc. rewrite IH.
  change (join sep (x :: y :: l)) with (x +:+ sep +:+ join sep (y :: l)).
  by rewrite !string_app_assoc.
Qed.

Lemma string_repeat_join sep (x : string) (n : nat) :
  x +:+ string_repeat n (sep +:+ x) = join sep (replicate (S n) x).
Proof.
  induction n as [|n IH]; [apply string_app_empty_r|].
  cbn [string_repeat]. rewrite <-string_app_assoc.
  change (replicate (S (S n)) x) with (x :: replicate (S n) x).
  change (join sep (x :: replicate (S n) x))
    with (x +:+ sep +:+ join sep (replicate (S n) x)).
  rewrite <-IH. by rewrite !string_app_assoc.
Qed.

(** X1.  [construct_insert_query] raises IndexError for an empty list of
    column names.  Otherwise the statement names the columns in the order
    given, separated by a comma and a space, and has as many [%s]
    placeholders as columns. *)
Theorem construct_insert_query_shape (table_name : string)
    (var_names : list string) :
  construct_insert_query table_name var_names
  = match var_names with
    | [] => Err IndexError
    | _ =>
        Ok ("INSERT INTO " +:+ table_name +:+ " ("
              +:+ join ", " var_names +:+ ") VALUES ("
              +:+ join ", " (replicate (length var_names) "%s") +:+ ");")
    end.
Proof.
  destruct var_names as [|first rest]; [done|].
  unfold construct_insert_query.
  change (py_index (first :: rest) 0) with (Ok first).
  change (Ok first ≫= ?f) with (f first). cbv beta zeta.
  change (drop 1 (first :: rest)) with rest.
  rewrite <-(string_app_assoc "INSERT INTO " table_name " (").
  rewrite foldl_join.
  change (length (first :: rest) - 1) with (length rest - 0).
  rewrite Nat.sub_0_r.
  change ") VALUES (%s" with (") VALUES (" +:+ "%s").
  rewrite (string_app_assoc ") VALUES (" "%s").
  rewrite <-(string_app_assoc "%s").
  rewrite (string_repeat_join ", " "%s").
  by rewrite !string_app_assoc.
Qed.

Lemma foldl_column_lines (p : string) (l : list (string * string)) :
  foldl (λ q a, q +:+ a.1 +:+ " " +:+ a.2 +:+ "," +:+ newline) p l
  = p +:+ column_lines l.
Proof.
  revert p. induction l as [|a l IH]; intros p.
  - simpl. by rewrite string_app_empty_r.
  - cbn [foldl column_lines]. rewrite IH. by rewrite !string_app_assoc.
Qed.

Lemma foldl_fst sep (p : string) (l : list (string * string)) :
  foldl (λ q a, q +:+ sep +:+ a.1) p l
  = foldl (λ q var, q +:+ sep +:+ var) p l.*1.
Proof. revert p. induction l as [|a l IH]; intros p; [done|]. apply IH. Qed.

(** X2.  [create_rcmd_table] always drops the table first.  With no
    attribute it then raises IndexError and creates nothing.  Otherwise
    it sends one [CREATE TABLE] statement: the attribute columns in the
    order given, the four columns [rcmd_1] to [rcmd_4], a primary key
    over all attribute names, and the four foreign keys. *)
Theorem create_rcmd_table_statements (table_name : string)
    (unique_attributes : list (string * string)) :
  create_rcmd_table table_name unique_attributes
  = match unique_attributes with
    | [] => (["DROP TABLE IF EXISTS " +:+ table_name +:+ ";"], Some IndexError)
    | _ =>
        (["DROP TABLE IF EXISTS " +:+ table_name +:+ ";";
          "CREATE TABLE " +:+ table_name +:+ "(" +:+ newline
          +:+ column_lines unique_attributes
          +:+ "rcmd_1 VARCHAR," +:+ newline
          +:+ "rcmd_2 VARCHAR," +:+ newline
          +:+ "rcmd_3 VARCHAR," +:+ newline
          +:+ "rcmd_4 VARCHAR," +:+ newline
          +:+ "PRIMARY KEY(" +:+ join ", " unique_attributes.*1
          +:+ ")," +:+ newline
          +:+ "FOREIGN KEY(rcmd_1) REFERENCES Products(id)," +:+ newline
          +:+ "FOREIGN KEY(rcmd_2) REFERENCES Products(id)," +:+ newline
          +:+ "FOREIGN KEY(rcmd_3) REFERENCES Products(id)," +:+ newline
          +:+ "FOREIGN KEY(rcmd_4) REFERENCES Products(id)" +:+ newline
          +:+ ");"], None)
    end.
Proof.
  destruct unique_attributes as [|first rest]; [done|].
  unfold create_rcmd_table.
  change (py_index (first :: rest) 0) with (Ok first). cbv beta iota zeta.
  change (drop 1 (first :: rest)) with rest.
  do 2 f_equal. f_equal.
  rewrite foldl_column_lines, foldl_fst.
  rewrite <-!string_app_assoc. rewrite foldl_join.
  by rewrite !string_app_assoc.
Qed.

(** ** The grouper as a lookup structure *)

Lemma dict_get_append d k e k' :
  dict_get (dict_append d k e) k'
  = if decide (k = k') then Some (default [] (dict_get d k) ++ [e])
    else dict_get d k'.
Proof.
  induction d as [|[k0 v] d IH]; simpl.
  - by repeat case_decide.
  - destruct (decide (k0 = k)) as [->|Hne]; simpl.
    + by destruct (decide (k = k')).
    + rewrite IH.
      destruct (decide (k = k')), (decide (k0 = k')); by simplify_eq.
Qed.

Lemma group_loop_get i tl dataset d d' k :
  group_loop (i :: tl) dataset d = Ok d' →
  dict_get d' k
  = match dict_get d k with
    | Some b => Some (b ++ filter (λ r, py_index r i = Ok k) dataset)
    | None =>
        if decide (filter (λ r, py_index r i = Ok k) dataset = []) then None
        else Some (filter (λ r, py_index r i = Ok k) dataset)
    end.
Proof.
  revert d. induction dataset as [|entry rest IH]; intros d; simpl.
  - intros [= ->]. rewrite filter_nil.
    destruct (dict_get d' k); [by rewrite (right_id_L [] (++))|done].
  - change (py_index (i :: tl) 0) with (Ok i). simpl.
    intros (k0 & Hk0 & H)%result_bind_Ok.
    rewrite (IH _ H), dict_get_append, filter_cons, Hk0.
    destruct (decide (k0 = k)) as [->|Hne].
    + rewrite (decide_True (P := Ok k = Ok k)) by done.
      destruct (dict_get d k) as [b|]; simpl; [|done].
      by rewrite <-(assoc_L (++)).
    + by rewrite (decide_False (P := Ok k0 = Ok k)) by congruence.
Qed.

Lemma dict_get_related {V W : Type} (R : V → W → Prop)
    (d : list (value * V)) (items : list (value * W)) k :
  Forall2 (λ kb kt, kt.1 = kb.1 ∧ R kb.2 kt.2) d items →
  match dict_get d k, dict_get items k with
  | Some b, Some v => R b v
  | None, None => True
  | _, _ => False
  end.
Proof.
  induction 1 as [|[k1 b] [k2 v] d items [Hk HR] _ IH]; simpl; [done|].
  simpl in Hk, HR. subst k2. by case_decide.
Qed.

Lemma filter_all {A : Type} (P : A → Prop) `{!∀ x, Decision (P x)}
    (l : list A) :
  Forall P l → filter P l = l.
Proof.
  induction 1 as [|x l Hx _ IH]; [done|].
  by rewrite filter_cons_True, IH.
Qed.

Lemma filter_matches_cons i tl k ks (dataset : list record) :
  filter (matches tl ks) (filter (λ r, py_index r i = Ok k) dataset)
  = filter (matches (i :: tl) (k :: ks)) dataset.
Proof.
  rewrite list_filter_filter. apply list_filter_iff. intros r.
  unfold matches. rewrite Forall2_cons. tauto.
Qed.

Lemma filter_key_nil i tl k ks (dataset : list record) :
  filter (λ r, py_index r i = Ok k) dataset = [] →
  filter (matches (i :: tl) (k :: ks)) dataset = [].
Proof. intros H. by rewrite <-filter_matches_cons, H. Qed.

(** X3.  A grouped dataset is an index of the rows by their keys: the
    lookup along a full path of keys yields the leaf that holds exactly
    the rows of the dataset with these values at the grouping indexes,
    in the order of the dataset; when no row has them, the first key
    that is not there ends the lookup. *)
Theorem group_lookup (dataset : list record) (index_list : list Z)
    (t : tree) (ks : list value) :
  group_data_by_unique_identifiers dataset index_list = Ok t →
  index_list ≠ [] →
  length ks = length index_list →
  subtree_at t ks
  = if decide (filter (matches index_list ks) dataset = []) then None
    else Some (Leaf (filter (matches index_list ks) dataset)).
Proof.
  revert dataset t ks. induction index_list as [|i tl IH]; [done|].
  intros dataset t [|k ks] Ht _ Hlen; [done|]. injection Hlen as Hlen.
  apply group_unfold in Ht as (d & items & Hd & -> & HF).
  pose proof (group_loop_get _ _ _ _ _ k Hd) as Hget. simpl in Hget.
  cbn [tail] in HF.
  pose proof (dict_get_related
                (λ b v, match tl with
                        | [] => v = Leaf b
                        | i' :: tl' =>
                              group_data_by_unique_identifiers b (i' :: tl') = Ok v
                        end) d items k HF) as Hrel.
  cbn [subtree_at].
  destruct (decide (filter (λ r, py_index r i = Ok k) dataset = []))
    as [Hnil|Hnil].
  - rewrite Hget in Hrel. destruct (dict_get items k); [done|].
    by rewrite (filter_key_nil _ _ _ _ _ Hnil), decide_True.
  - rewrite Hget in Hrel. destruct (dict_get items k) as [v|]; [|done].
    destruct tl as [|i' tl'].
    + subst v. destruct ks; [|done]. simpl.
      rewrite <-filter_matches_cons.
      rewrite (filter_all (matches [] [])) by (apply Forall_true; constructor).
      by rewrite decide_False.
    + rewrite (IH _ _ _ Hrel) by done. by rewrite filter_matches_cons.
Qed.

Lemma group_lookup_witness :
  subtree_at catalogue_tree [VStr "A"; VStr "X"]
  = if decide (filter (matches script_index_list [VStr "A"; VStr "X"])
                 catalogue = []) then None
    else Some (Leaf (filter (matches script_index_list [VStr "A"; VStr "X"])
                       catalogue)).
Proof. by apply (group_lookup catalogue script_index_list). Defined.

(** X4.  The rows below the node reached by a prefix of keys are, as a
    multiset, exactly the rows of the dataset that carry these keys at
    the first grouping indexes: the node misses no such row and holds no
    other. *)
Theorem subtree_rows (dataset : list record) (index_list : list Z)
    (t : tree) (ks : list value) (t' : tree) :
  group_data_by_unique_identifiers dataset index_list = Ok t →
  subtree_at t ks = Some t' →
  tree_records t'
  ≡ₚ filter (matches (take (length ks) index_list) ks) dataset.
Proof.
  revert dataset t ks. induction index_list as [|i tl IH];
    intros dataset t [|k ks] Ht Hsub.
  - injection Hsub as <-. apply group_inv in Ht as [-> _].
    by rewrite filter_all by (apply Forall_true; constructor).
  - apply group_unfold in Ht as (d & items & Hd & -> & HF).
    apply group_loop_nil in Hd as [-> ->].
    by apply Forall2_nil_inv_l in HF as ->.
  - injection Hsub as <-. apply group_inv in Ht as [-> _].
    by rewrite filter_all by (apply Forall_true; constructor).
  - apply group_unfold in Ht as (d & items & Hd & -> & HF).
    pose proof (group_loop_get _ _ _ _ _ k Hd) as Hget. simpl in Hget.
    cbn [tail] in HF.
    pose proof (dict_get_related
                  (λ b v, match tl with
                          | [] => v = Leaf b
                          | i' :: tl' =>
                              group_data_by_unique_identifiers b (i' :: tl') = Ok v
                          end) d items k HF) as Hrel.
    cbn [subtree_at] in Hsub.
    destruct (dict_get items k) as [v|]; [|done].
    rewrite Hget in Hrel. case_decide as Hnil; [done|].
    cbn [length take]. rewrite <-filter_matches_cons.
    destruct tl as [|i' tl'].
    + subst v. destruct ks; [|done]. injection Hsub as <-. simpl.
      by rewrite (filter_all (matches [] [])) by (apply Forall_true; constructor).
    + by apply (IH _ _ _ Hrel).
Qed.

Lemma subtree_rows_witness :
  tree_records (Node [(VStr "X", Leaf (take 5 catalogue))])
  ≡ₚ filter (matches (take (length [VStr "A"]) script_index_list) [VStr "A"])
       catalogue.
Proof.
  by apply (subtree_rows catalogue script_index_list catalogue_tree
              [VStr "A"]).
Defined.

(** ** The shape of the grouped tree *)

Lemma dict_append_keys d k e :
  (dict_append d k e).*1
  = if decide (k ∈ d.*1) then d.*1 else d.*1 ++ [k].
Proof.
  induction d as [|[k0 v] d IH]; [done|].
  cbn [dict_append]. rewrite (fmap_cons fst (k0, v) d). cbn [fst].
  destruct (decide (k0 = k)) as [->|Hne].
  - rewrite fmap_cons, decide_True; [done|]. apply list_elem_of_here.
  - rewrite fmap_cons, IH. cbn [fst].
    destruct (decide (k ∈ d.*1)) as [Hin|Hin].
    + rewrite decide_True; [done|]. by apply list_elem_of_further.
    + rewrite decide_False; [done|].
      intros [?|?]%elem_of_cons; by simplify_eq.
Qed.

Lemma group_loop_keys i tl dataset d d' :
  group_loop (i :: tl) dataset d = Ok d' →
  ∃ keys,
    Forall2 (λ r key, py_index r i = Ok key) dataset keys
    ∧ d'.*1 = d.*1 ++ filter (λ y, y ∉ d.*1) (first_seen keys)
    ∧ (NoDup d.*1 → NoDup d'.*1).
Proof.
  revert d. induction dataset as [|entry rest IH]; intros d; simpl.
  - intros [= ->]. exists []. split_and!; [constructor| |done].
    cbn [first_seen]. by rewrite filter_nil, (right_id_L [] (++)).
  - change (py_index (i :: tl) 0) with (Ok i). simpl.
    intros (k & Hk & H)%result_bind_Ok.
    destruct (IH _ H) as (keys & Hkeys & Heq & Hnd).
    exists (k :: keys). split_and!; [by constructor| |].
    + rewrite Heq, dict_append_keys. cbn [first_seen].
      destruct (decide (k ∈ d.*1)) as [Hin|Hin].
      * rewrite filter_cons_False by (by intros []).
        rewrite list_filter_filter. f_equal. apply list_filter_iff.
        intros y. split; [|tauto]. intros Hy. split; [done|]. by intros ->.
      * rewrite filter_cons_True by done.
        rewrite list_filter_filter, <-(assoc_L (++)). simpl. do 2 f_equal.
        apply list_filter_iff. intros y. rewrite not_elem_of_app.
        rewrite list_elem_of_singleton. tauto.
    + intros Hd. apply Hnd. rewrite dict_append_keys.
      case_decide; [done|]. apply NoDup_app. split_and!; [done| |].
      * intros y Hy ->%list_elem_of_singleton. done.
      * apply NoDup_singleton.
Qed.

Lemma Forall2_keys {V W : Type} (P : value * V → value * W → Prop)
    (d : list (value * V)) (items : list (value * W)) :
  (∀ kb kt, P kb kt → kt.1 = kb.1) →
  Forall2 P d items → items.*1 = d.*1.
Proof.
  intros HP. induction 1 as [|kb kt d items Hk _ IH]; [done|].
  by rewrite !fmap_cons, (HP _ _ Hk), IH.
Qed.

(** X5.  The keys of the outermost dict are the distinct values that the
    rows have at the first grouping index, in the order in which the
    dataset first shows them; this is the order in which the
    recommender produces the slots. *)
Theorem first_seen_order (dataset : list record) (i : Z) (tl : list Z)
    (t : tree) :
  group_data_by_unique_identifiers dataset (i :: tl) = Ok t →
  ∃ items keys,
    t = Node items
    ∧ Forall2 (λ r key, py_index r i = Ok key) dataset keys
    ∧ items.*1 = first_seen keys.
Proof.
  intros Ht. apply group_unfold in Ht as (d & items & Hd & -> & HF).
  apply group_loop_keys in Hd as (keys & Hkeys & Heq & _).
  exists items, keys. split_and!; [done..|].
  cbn [tail] in HF.
  rewrite (Forall2_keys _ _ _ (λ _ _ H, proj1 H) HF), Heq. simpl.
  apply filter_all, Forall_true. by intros y ?%elem_of_nil.
Qed.

Lemma first_seen_order_witness :
  ∃ items keys,
    catalogue_tree = Node items
    ∧ Forall2 (λ r key, py_index r 1 = Ok key) catalogue keys
    ∧ items.*1 = first_seen keys.
Proof. by apply (first_seen_order catalogue 1 [2%Z]). Defined.

(** X6.  In every dict of the grouped tree the keys are pairwise
    distinct: no attribute value gets two buckets. *)
Theorem grouped_keys_distinct (dataset : list record) (index_list : list Z)
    (t : tree) :
  group_data_by_unique_identifiers dataset index_list = Ok t →
  keys_distinct t.
Proof.
  revert dataset t. induction index_list as [|i tl IH]; intros dataset t Ht;
    apply group_unfold in Ht as (d & items & Hd & -> & HF).
  - apply group_loop_nil in Hd as [-> ->]. apply Forall2_nil_inv_l in HF as ->.
    constructor; constructor.
  - apply group_loop_keys in Hd as (_ & _ & _ & Hnd).
    specialize (Hnd (NoDup_nil_2)). cbn [tail] in HF.
    constructor; [by rewrite (Forall2_keys _ _ _ (λ _ _ H, proj1 H) HF)|].
    clear Hnd. induction HF as [|kb kt d items [_ Hkt] _ IHF]; constructor;
      [|done].
    destruct tl; [rewrite Hkt; constructor|by eapply IH].
Qed.

Lemma grouped_keys_distinct_witness : keys_distinct catalogue_tree.
Proof. by apply (grouped_keys_distinct catalogue script_index_list). Defined.

(** X7.  The grouped tree has one level of dicts per grouping index:
    every leaf list lies below exactly [len(index_list)] dicts. *)
Theorem grouped_depth (dataset : list record) (index_list : list Z)
    (t : tree) :
  group_data_by_unique_identifiers dataset index_list = Ok t →
  index_list ≠ [] →
  has_depth (length index_list) t.
Proof.
  revert dataset t. induction index_list as [|i tl IH]; [done|].
  intros dataset t Ht _.
  apply group_unfold in Ht as (d & items & _ & -> & HF). cbn [tail] in HF.
  exists items. split; [done|].
  induction HF as [|kb kt d items [_ Hkt] _ IHF]; constructor; [|done].
  destruct tl; [by eexists|by eapply IH].
Qed.

Lemma grouped_depth_witness : has_depth (length script_index_list) catalogue_tree.
Proof. by apply (grouped_depth catalogue script_index_list). Defined.

(** ** The fallback pass, case by case *)

(** X8.  At the outermost level the pass completes every batch, given a
    non-empty original dataset: no index is reported, every slot keeps
    the rows it had, in place, as a prefix; the slots outside the
    incomplete indexes are returned unchanged; every slot at an
    incomplete index ends with exactly [max(len, k)] rows, the appended
    ones being rows of the batch or of the original dataset. *)
Theorem outermost_fallback_effect (original_dataset : list record) (k : Z)
    (dataset : list slot) (incomplete_indexes : list nat) (rs : list nat) :
  original_dataset ≠ [] →
  Forall (λ s, s ≠ []) dataset →
  Forall (λ i, i < length dataset) incomplete_indexes →
  ∃ dataset' rs',
    finish_incomplete original_dataset 0 k dataset incomplete_indexes rs
    = Ok ((dataset', []), rs')
    ∧ grown (λ r, r ∈ mjoin dataset ∨ r ∈ original_dataset) dataset dataset'
    ∧ filled k incomplete_indexes dataset dataset'.
Proof.
  intros Hpool Hne Hinc.
  destruct (finish_incomplete_spec original_dataset 0 k dataset
              incomplete_indexes rs Hne Hinc)
    as (d' & inc' & rs' & Hrun & Hg & Hcases & Htop & _); [by left|].
  rewrite Htop in Hrun by done. exists d', rs'. split_and!; [done| |].
  - eapply grown_impl; [|apply Hg]. intros r [?|[_ ?]]; [by left|by right].
  - destruct Hcases as [[_ Hf]|[<- ->]]; [done|].
    rewrite Htop by done. apply filled_nil.
Qed.

Lemma outermost_fallback_effect_witness :
  ∃ dataset' rs',
    finish_incomplete catalogue 0 4
      [take 4 catalogue; [product 6 "B" "Y"]] [1] [0; 1; 2]
    = Ok ((dataset', []), rs')
    ∧ grown (λ r, r ∈ mjoin [take 4 catalogue; [product 6 "B" "Y"]]
                  ∨ r ∈ catalogue)
        [take 4 catalogue; [product 6 "B" "Y"]] dataset'
    ∧ filled 4 [1] [take 4 catalogue; [product 6 "B" "Y"]] dataset'.
Proof.
  apply outermost_fallback_effect; [done| |].
  - constructor; [done|]. constructor; [done|constructor].
  - constructor; [simpl; lia|constructor].
Defined.

(** X9.  Below the outermost level, when fewer than [k] slots are
    complete, the pass defers: it returns the batch and the incomplete
    indexes exactly as it got them and makes no random draw. *)
Theorem deferral (original_dataset : list record) (current_level k : Z)
    (dataset : list slot) (incomplete_indexes : list nat) (rs : list nat) :
  current_level ≠ 0%Z →
  (Z.of_nat (length dataset) - Z.of_nat (length incomplete_indexes) < k)%Z →
  finish_incomplete original_dataset current_level k dataset
    incomplete_indexes rs
  = Ok ((dataset, incomplete_indexes), rs).
Proof.
  intros Hlevel Hcond. unfold finish_incomplete.
  rewrite (rand_bind_Ok _ _ _ _ _
             (finish_loop_defer original_dataset current_level k
                (length incomplete_indexes) incomplete_indexes dataset rs
                ltac:(lia) Hlevel)).
  by destruct incomplete_indexes.
Qed.

Lemma deferral_witness :
  finish_incomplete catalogue 1 4 [[product 6 "B" "Y"]] [0] [5; 7]
  = Ok (([[product 6 "B" "Y"]], [0]), [5; 7]).
Proof. apply deferral; [done|simpl; lia]. Defined.

Lemma random_choice_nil {A : Type} rs :
  random_choice (@nil A) rs = Err IndexError.
Proof. by destruct rs. Qed.

(** X10.  The global-random fallback cannot work without rows to draw
    from: at the outermost level, with fewer than [k] complete slots, an
    empty original dataset and a first incomplete slot that is shorter
    than [k], the pass raises IndexError. *)
Theorem global_fallback_needs_rows (k : Z) (dataset : list slot)
    (index : nat) (rest : list nat) (s : slot) (rs : list nat) :
  (Z.of_nat (length dataset) - Z.of_nat (length (index :: rest)) < k)%Z →
  dataset !! index = Some s →
  (Z.of_nat (length s) < k)%Z →
  finish_incomplete [] 0 k dataset (index :: rest) rs = Err IndexError.
Proof.
  intros Hcond Hs Hshort. unfold finish_incomplete. cbn [finish_loop].
  rewrite (proj2 (Z.leb_nle _ _)) by lia. change (0 =? 0)%Z with true.
  cbv iota. unfold mbind at 1, Rand_bind at 1. unfold mbind at 1, Rand_bind at 1.
  rewrite (range_size_Ok _ _ _ k rs Hs).
  destruct (Z.to_nat (k - Z.of_nat (length s))) as [|n] eqn:Hn; [lia|].
  cbn [global_fill]. unfold mbind at 1, Rand_bind at 1.
  unfold mbind at 1, Rand_bind at 1.
  by rewrite random_choice_nil.
Qed.

Lemma global_fallback_needs_rows_witness :
  finish_incomplete [] 0 4 [[product 6 "B" "Y"]] [0] [5; 7] = Err IndexError.
Proof.
  apply (global_fallback_needs_rows 4 _ 0 [] [product 6 "B" "Y"]);
    [simpl; lia|done|simpl; lia].
Defined.

(** ** Slots and their leaves *)

Lemma append_at_grown dataset index x rs d' rs' :
  append_at dataset index x rs = Ok (d', rs') →
  grown (λ _, True) dataset d'.
Proof.
  unfold append_at. destruct (dataset !! index) as [s|] eqn:Hs; [|done].
  intros [<- _]%rand_ret_inv. by apply grown_insert.
Qed.

Lemma peer_fill_grown n index dataset rs d' rs' :
  peer_fill n index dataset rs = Ok (d', rs') →
  grown (λ _, True) dataset d'.
Proof.
  revert dataset rs. induction n as [|n IH]; intros dataset rs; simpl.
  - intros [<- _]%rand_ret_inv. apply grown_refl.
  - intros (s & rs1 & _ & H)%rand_bind_inv.
    apply rand_bind_inv in H as (x & rs2 & _ & H).
    apply rand_bind_inv in H as (d1 & rs3 & Hd1 & H).
    eapply grown_trans; [by eapply append_at_grown|by eapply IH].
Qed.

Lemma global_fill_grown original_dataset n index dataset rs d' rs' :
  global_fill original_dataset n index dataset rs = Ok (d', rs') →
  grown (λ _, True) dataset d'.
Proof.
  revert dataset rs. induction n as [|n IH]; intros dataset rs; simpl.
  - intros [<- _]%rand_ret_inv. apply grown_refl.
  - intros (x & rs1 & _ & H)%rand_bind_inv.
    apply rand_bind_inv in H as (d1 & rs2 & Hd1 & H).
    eapply grown_trans; [by eapply append_at_grown|by eapply IH].
Qed.

Lemma finish_incomplete_grown original_dataset current_level k dataset inc
    rs d' inc' rs' :
  finish_incomplete original_dataset current_level k dataset inc rs
  = Ok ((d', inc'), rs') →
  grown (λ _, True) dataset d'.
Proof.
  unfold finish_incomplete.
  intros ([d1 able] & rs1 & Hloop & H)%rand_bind_inv.
  apply rand_ret_inv in H as [[= <- _] _].
  revert dataset rs Hloop. generalize (length inc).
  induction inc as [|index rest IH]; intros n_inc dataset rs;
    cbn [finish_loop].
  - intros [[= <- _] _]%rand_ret_inv. apply grown_refl.
  - destruct (_ <=? _)%Z; [|destruct (_ =? _)%Z].
    + intros (n & rs2 & _ & H)%rand_bind_inv.
      apply rand_bind_inv in H as (d2 & rs3 & Hd2 & H).
      eapply grown_trans; [by eapply peer_fill_grown|by eapply IH].
    + intros (n & rs2 & _ & H)%rand_bind_inv.
      apply rand_bind_inv in H as (d2 & rs3 & Hd2 & H).
      eapply grown_trans; [by eapply global_fill_grown|by eapply IH].
    + intros [[= <- _] _]%rand_ret_inv. apply grown_refl.
Qed.

Lemma primary_selection_grown src leaves dataset d' :
  Forall2 primary_selection leaves dataset → grown src dataset d' →
  Forall2 primary_selection leaves d'.
Proof.
  intros H. revert d'.
  induction H as [|leaf s leaves dataset (own & extra & -> & Hlen & Hrest) _ IH];
    intros d' Hg; unfold grown in Hg.
  - by apply Forall2_nil_inv_l in Hg as ->.
  - apply Forall2_cons_inv_l in Hg as (s' & d'' & (e & -> & _) & Hg & ->).
    constructor; [|by apply IH]. exists own, (extra ++ e).
    by rewrite (assoc_L (++)).
Qed.

Lemma unpack_primary (rec : tree → Rand (list slot * list nat)) items :
  Forall (λ kv, ∀ rs res incd rs',
            rec kv.2 rs = Ok ((res, incd), rs') →
            Forall2 primary_selection (tree_leaves kv.2) res) items →
  ∀ leaves dataset inc n rs d' inc' rs',
    Forall2 primary_selection leaves dataset →
    unpack rec items dataset inc n rs = Ok ((d', inc'), rs') →
    Forall2 primary_selection
      (leaves ++ mjoin ((λ kv, tree_leaves kv.2) <$> items)) d'.
Proof.
  induction 1 as [|[key v] items Hv _ IH];
    intros leaves dataset inc n rs d' inc' rs' Hleaves; cbn [unpack].
  - intros [[= <- _] _]%rand_ret_inv. simpl.
    by rewrite (right_id_L [] (++)).
  - intros ([res incd] & rs1 & Hres & H)%rand_bind_inv.
    apply Hv in Hres. simpl in Hres.
    rewrite fmap_cons. simpl. rewrite (assoc_L (++)).
    eapply IH; [|apply H]. by apply Forall2_app.
Qed.

(** Whenever a call on a dict returns, or a call with the default amount
    on any tree, the slots stand in the order of the leaf lists and each
    starts with the selection from its own leaf. *)
Lemma primary_selection_of_result t :
  ∀ original_dataset current_level k rs slots inc rs',
    (k = default_recommendation_amount ∨ ∃ items, t = Node items) →
    content_filter_recommendations_from_grouped_data t original_dataset
      current_level k rs
    = Ok ((slots, inc), rs') →
    Forall2 primary_selection (tree_leaves t) slots.
Proof.
  induction t as [data|items IH] using tree_ind';
    intros original_dataset current_level k rs slots inc rs' Hk Hrun.
  - destruct Hk as [->|[? ?]]; [|done].
    destruct (leaf_spec data original_dataset current_level
                default_recommendation_amount rs)
      as (s & rs1 & Hrun' & Hlen & rest & Hperm); [done|].
    rewrite Hrun in Hrun'. injection Hrun' as -> _ _.
    constructor; [|constructor]. exists s, [].
    unfold default_recommendation_amount in Hlen.
    split_and!; [by rewrite (right_id_L [] (++))|lia|by exists rest].
  - cbn [content_filter_recommendations_from_grouped_data] in Hrun.
    apply rand_bind_inv in Hrun as ([dataset inc0] & rs1 & Hunpack & Hfin).
    eapply primary_selection_grown;
      [|by eapply finish_incomplete_grown].
    apply (unpack_primary _ items) with (leaves := []) in Hunpack;
      [done| |constructor].
    eapply Forall_impl; [apply IH|]. intros kv Hkv rs0 res incd rs0' Hres.
    eapply Hkv; [|apply Hres]. by left.
Qed.

(** X11.  For a non-empty dataset, whatever the amount and the random
    choices, the outermost call on the grouped tree returns one slot per
    leaf list, in the order of the leaf lists, and each slot starts with
    the rows sampled from its own leaf, [min(4, n)] of its [n] rows,
    from different positions; what a fallback adds comes after them.  In
    particular the first row of a slot is a row of the slot's own
    permutation. *)
Theorem slots_start_with_own_selection (dataset : list record)
    (index_list : list Z) (t : tree) (k : Z) (rs : list nat) :
  dataset ≠ [] →
  group_data_by_unique_identifiers dataset index_list = Ok t →
  ∃ slots rs',
    content_filter_recommendations_from_grouped_data t dataset 0 k rs
    = Ok ((slots, []), rs')
    ∧ Forall2 primary_selection (tree_leaves t) slots
    ∧ Forall2 (λ leaf s, ∃ r, head s = Some r ∧ r ∈ leaf) (tree_leaves t) slots.
Proof.
  intros Hne Ht. apply group_inv in Ht as Hinv. destruct Hinv as [_ Hleaves].
  apply group_unfold in Ht as (d & items & _ & -> & _).
  assert (Hleaves' := Hleaves). inversion_clear Hleaves' as [|? Hitems].
  destruct (node_spec items dataset 0 k rs)
    as (slots & inc & rs' & Hrun & _ & _ & Hinc & _); [|done|by left|].
  { eapply Forall_impl; [apply Hitems|]. intros kv. apply default_spec_holds. }
  rewrite Hinc in Hrun by done. exists slots, rs'.
  assert (Forall2 primary_selection (tree_leaves (Node items)) slots) as Hprim.
  { eapply primary_selection_of_result; [|apply Hrun]. right. by eexists. }
  split_and!; [done..|].
  assert (Forall (λ leaf, leaf ≠ []) (tree_leaves (Node items))) as Hne'.
  { clear -Hleaves. induction (Node items) as [data|its IH] using tree_ind'.
    - inversion_clear Hleaves. by constructor.
    - inversion_clear Hleaves as [|? Hits]. simpl.
      induction its as [|[key v] its IHits]; [constructor|].
      apply Forall_cons_1 in IH as [IHv IH].
      apply Forall_cons_1 in Hits as [Hv Hits].
      rewrite fmap_cons. simpl. apply Forall_app. split; [by apply IHv|].
      by apply IHits. }
  clear -Hprim Hne'.
  induction Hprim as [|leaf s leaves slots (own & extra & -> & Hlen & rest & Hperm) _ IH];
    [constructor|].
  apply Forall_cons_1 in Hne' as [Hleaf Hne']. constructor; [|by apply IH].
  destruct own as [|r own]; [destruct leaf; simpl in Hlen; [done|lia]|].
  exists r. split; [done|]. rewrite <-Hperm. apply list_elem_of_here.
Qed.

Lemma slots_start_with_own_selection_witness :
  ∃ slots rs',
    content_filter_recommendations_from_grouped_data catalogue_tree catalogue
      0 4 [3; 1; 0; 2; 5; 7]
    = Ok ((slots, []), rs')
    ∧ Forall2 primary_selection (tree_leaves catalogue_tree) slots
    ∧ Forall2 (λ leaf s, ∃ r, head s = Some r ∧ r ∈ leaf)
        (tree_leaves catalogue_tree) slots.
Proof.
  by apply (slots_start_with_own_selection catalogue script_index_list).
Defined.

(** ** The incomplete indexes *)

Lemma finish_loop_able_peer original_dataset current_level k n_inc todo
    dataset rs d' able rs' :
  (k ≤ Z.of_nat (length dataset) - Z.of_nat n_inc)%Z →
  finish_loop original_dataset current_level k n_inc todo dataset rs
  = Ok ((d', able), rs') →
  able = true.
Proof.
  revert dataset rs. induction todo as [|index rest IH]; intros dataset rs Hc;
    cbn [finish_loop].
  - by intros [[= _ <-] _]%rand_ret_inv.
  - rewrite (proj2 (Z.leb_le _ _) Hc).
    intros (n & rs1 & _ & H)%rand_bind_inv.
    apply rand_bind_inv in H as (d1 & rs2 & Hd1 & H).
    eapply IH; [|apply H]. by rewrite (peer_fill_length _ _ _ _ _ _ Hd1).
Qed.

Lemma finish_loop_able_top original_dataset k n_inc todo dataset rs d' able
    rs' :
  ¬ (k ≤ Z.of_nat (length dataset) - Z.of_nat n_inc)%Z →
  finish_loop original_dataset 0 k n_inc todo dataset rs
  = Ok ((d', able), rs') →
  able = true.
Proof.
  revert dataset rs. induction todo as [|index rest IH]; intros dataset rs Hc;
    cbn [finish_loop].
  - by intros [[= _ <-] _]%rand_ret_inv.
  - rewrite (proj2 (Z.leb_nle _ _) Hc). change (0 =? 0)%Z with true. cbv iota.
    intros (n & rs1 & _ & H)%rand_bind_inv.
    apply rand_bind_inv in H as (d1 & rs2 & Hd1 & H).
    eapply IH; [|apply H]. by rewrite (global_fill_length _ _ _ _ _ _ _ Hd1).
Qed.

(** Whenever the pass returns, it reports no index at all, or it has
    changed nothing. *)
Lemma finish_incomplete_all_or_nothing original_dataset current_level k
    dataset inc rs d' inc' rs' :
  finish_incomplete original_dataset current_level k dataset inc rs
  = Ok ((d', inc'), rs') →
  inc' = [] ∨ (inc' = inc ∧ d' = dataset).
Proof.
  unfold finish_incomplete.
  intros ([d1 able] & rs1 & Hloop & H)%rand_bind_inv.
  apply rand_ret_inv in H as [[= <- <-] _].
  destruct (decide (k ≤ Z.of_nat (length dataset) - Z.of_nat (length inc))%Z)
    as [Hc|Hc]; [|destruct (decide (current_level = 0%Z)) as [->|Hlevel]].
  - left. by rewrite (finish_loop_able_peer _ _ _ _ _ _ _ _ _ _ Hc Hloop).
  - left. by rewrite (finish_loop_able_top _ _ _ _ _ _ _ _ _ Hc Hloop).
  - rewrite finish_loop_defer in Hloop by done. injection Hloop as <- <- _.
    destruct inc; [by left|by right].
Qed.

Lemma unpack_short (rec : tree → Rand (list slot * list nat)) items :
  Forall (λ kv, ∀ rs res incd rs',
            rec kv.2 rs = Ok ((res, incd), rs') →
            ∀ i, i ∈ incd → ∃ s, res !! i = Some s ∧ length s < 4) items →
  ∀ dataset inc rs d' inc' rs',
    (∀ i, i ∈ inc → ∃ s, dataset !! i = Some s ∧ length s < 4) →
    unpack rec items dataset inc (length dataset) rs = Ok ((d', inc'), rs') →
    ∀ i, i ∈ inc' → ∃ s, d' !! i = Some s ∧ length s < 4.
Proof.
  induction 1 as [|[key v] items Hv _ IH];
    intros dataset inc rs d' inc' rs' Hshort; cbn [unpack].
  - by intros [[= <- <-] _]%rand_ret_inv.
  - intros ([res incd] & rs1 & Hres & H)%rand_bind_inv.
    rewrite <-length_app in H. eapply IH; [|apply H].
    intros i [Hi|Hi]%elem_of_app.
    + destruct (Hshort i Hi) as (s & Hs & Hlen). exists s. split; [|done].
      by apply lookup_app_l_Some.
    + apply list_elem_of_fmap in Hi as (x & -> & Hx).
      destruct (Hv _ _ _ _ Hres x Hx) as (s & Hs & Hlen).
      exists s. split; [|done]. simpl in Hs.
      by rewrite Nat.add_comm, lookup_app_r, Nat.add_sub' by lia.
Qed.

Lemma short_of_result t :
  leaves_nonempty t →
  ∀ original_dataset current_level rs slots inc rs',
    content_filter_recommendations_from_grouped_data t original_dataset
      current_level default_recommendation_amount rs
    = Ok ((slots, inc), rs') →
    ∀ i, i ∈ inc → ∃ s, slots !! i = Some s ∧ length s < 4.
Proof.
  induction t as [data|items IH] using tree_ind'; intros Hne
    original_dataset current_level rs slots inc rs' Hrun.
  - destruct (leaf_spec data original_dataset current_level
                default_recommendation_amount rs)
      as (s & rs1 & Hrun' & Hlen & _); [done|].
    rewrite Hrun in Hrun'. injection Hrun' as -> -> _.
    unfold default_recommendation_amount in *.
    destruct (Z.of_nat (length data) <? 4)%Z eqn:Hlt;
      [apply Z.ltb_lt in Hlt|by intros i ?%elem_of_nil].
    intros i ->%list_elem_of_singleton. exists s. split; [done|lia].
  - inversion_clear Hne as [|? Hitems].
    cbn [content_filter_recommendations_from_grouped_data] in Hrun.
    apply rand_bind_inv in Hrun as ([dataset inc0] & rs1 & Hunpack & Hfin).
    apply finish_incomplete_all_or_nothing in Hfin as [->|[-> ->]];
      [by intros i ?%elem_of_nil|].
    eapply (unpack_short _ items) with (dataset := []); [| |apply Hunpack].
    + apply Forall_forall. intros kv Hkv rs0 res incd rs0' Hres.
      eapply (proj1 (Forall_forall _ _) IH kv Hkv); [|apply Hres].
      by apply (proj1 (Forall_forall _ _) Hitems kv Hkv).
    + by intros i ?%elem_of_nil.
Qed.

(** X12.  Below the outermost level the incomplete indexes are exact:
    for every tree without empty leaves the call with the default amount
    returns, and an index is reported incomplete if and only if the slot
    at that position holds fewer rows than the amount. *)
Theorem incomplete_indexes_exact (t : tree) (original_dataset : list record)
    (current_level : Z) (rs : list nat) :
  leaves_nonempty t →
  (0 < current_level)%Z →
  ∃ slots incomplete_indexes rs',
    content_filter_recommendations_from_grouped_data t original_dataset
      current_level default_recommendation_amount rs
    = Ok ((slots, incomplete_indexes), rs')
    ∧ ∀ i s, slots !! i = Some s →
        (i ∈ incomplete_indexes ↔ length s < 4).
Proof.
  intros Hne Hlevel.
  destruct (default_spec_holds t Hne original_dataset current_level rs)
    as (slots & inc & rs' & Hrun & _ & _ & _ & Hfull); [lia|by right|].
  exists slots, inc, rs'. split; [done|]. intros i s Hs. split.
  - intros Hi.
    destruct (short_of_result t Hne _ _ _ _ _ _ Hrun i Hi) as (s' & Hs' & Hlen).
    by simplify_eq.
  - intros Hlen. destruct (decide (i ∈ inc)) as [|Hni]; [done|].
    rewrite (Hfull i s Hs Hni) in Hlen. lia.
Qed.

Lemma incomplete_indexes_exact_witness :
  ∃ slots incomplete_indexes rs',
    content_filter_recommendations_from_grouped_data
      (Node [(VStr "Y", Leaf (drop 5 catalogue))]) catalogue 1
      default_recommendation_amount [5; 7]
    = Ok ((slots, incomplete_indexes), rs')
    ∧ ∀ i s, slots !! i = Some s →
        (i ∈ incomplete_indexes ↔ length s < 4).
Proof.
  apply incomplete_indexes_exact; [|lia].
  constructor. constructor; [|constructor]. simpl. by constructor.
Defined.

(** ** The rows the exporter builds *)

Lemma py_index_0 {A : Type} (seq : list A) :
  py_index seq 0 = match seq with [] => Err IndexError | x :: _ => Ok x end.
Proof. by destruct seq. Qed.

Lemma products_loop_Ok recommendation result_data :
  [] ∉ recommendation →
  ∃ ids,
    Forall2 (λ r id, head r = Some id) recommendation ids
    ∧ products_loop recommendation result_data = Ok (result_data ++ ids).
Proof.
  revert result_data. induction recommendation as [|p rest IH];
    intros result_data Hrows.
  - exists []. split; [constructor|]. simpl.
    by rewrite (right_id_L [] (++)).
  - apply not_elem_of_cons in Hrows as [Hp Hrest].
    destruct p as [|x p]; [done|].
    destruct (IH (result_data ++ [x]) Hrest) as (ids & Hids & Hrun).
    exists (x :: ids). split; [by constructor|].
    cbn [products_loop]. rewrite py_index_0. simpl.
    by rewrite Hrun, <-(assoc_L (++)).
Qed.

Lemma products_loop_fail recommendation result_data :
  [] ∈ recommendation →
  products_loop recommendation result_data = Err IndexError.
Proof.
  revert result_data. induction recommendation as [|p rest IH];
    intros result_data; [by intros ?%elem_of_nil|].
  intros Hin. cbn [products_loop]. rewrite py_index_0.
  destruct p as [|x p]; [done|]. simpl. apply IH.
  by apply elem_of_cons in Hin as [?|?].
Qed.

Lemma result_data_of_fail recommendation :
  recommendation = [] ∨ [] ∈ recommendation →
  result_data_of recommendation = Err IndexError.
Proof.
  intros [->|Hin]; [done|]. unfold result_data_of. rewrite py_index_0.
  destruct recommendation as [|first rest]; [done|].
  change (Ok first ≫= ?f) with (f first). by apply products_loop_fail.
Qed.

Lemma result_data_of_Ok recommendation :
  recommendation ≠ [] →
  [] ∉ recommendation →
  ∃ first ids,
    head recommendation = Some first
    ∧ Forall2 (λ r id, head r = Some id) recommendation ids
    ∧ result_data_of recommendation = Ok (drop 1 first ++ ids).
Proof.
  intros Hne Hrows. destruct recommendation as [|first rest]; [done|].
  destruct (products_loop_Ok (first :: rest) (drop 1 first) Hrows)
    as (ids & Hids & Hrun).
  exists first, ids. split_and!; [done|done|].
  unfold result_data_of. by rewrite py_index_0.
Qed.

(** X13.  For a slot that is not empty and holds no empty row, one
    iteration of the exporter's loop builds the row made of the fields
    of the slot's first row from position 1 on, followed by field 0 of
    every row of the slot, in slot order. *)
Theorem result_data_shape (recommendation : slot) :
  recommendation ≠ [] →
  [] ∉ recommendation →
  ∃ first ids,
    head recommendation = Some first
    ∧ Forall2 (λ r id, head r = Some id) recommendation ids
    ∧ result_data_of recommendation = Ok (drop 1 first ++ ids)
    ∧ length (drop 1 first ++ ids)
      = length first - 1 + length recommendation.
Proof.
  intros Hne Hrows.
  destruct (result_data_of_Ok recommendation Hne Hrows)
    as (first & ids & Hfirst & Hids & Hrun).
  exists first, ids. split_and!; [done..|].
  by rewrite length_app, length_drop, <-(Forall2_length _ _ _ Hids).
Qed.

Lemma result_data_shape_witness :
  ∃ first ids,
    head (take 4 catalogue) = Some first
    ∧ Forall2 (λ r id, head r = Some id) (take 4 catalogue) ids
    ∧ result_data_of (take 4 catalogue) = Ok (drop 1 first ++ ids)
    ∧ length (drop 1 first ++ ids)
      = length first - 1 + length (take 4 catalogue).
Proof.
  apply result_data_shape; [done|].
  intros Hin. repeat (apply elem_of_cons in Hin as [Hin|Hin]; [done|]).
  by apply elem_of_nil in Hin.
Defined.

Lemma export_loop_Ok recommendations stdout :
  Forall (λ s, s ≠ [] ∧ [] ∉ s) recommendations →
  export_loop recommendations stdout = Ok (stdout ++ recommendations).
Proof.
  intros H. revert stdout. induction H as [|s rest [Hne Hrows] _ IH];
    intros stdout; simpl.
  - by rewrite (right_id_L [] (++)).
  - destruct (result_data_of_Ok s Hne Hrows) as (? & ? & _ & _ & ->).
    simpl. by rewrite IH, <-(assoc_L (++)).
Qed.

Lemma export_loop_fail recommendations stdout :
  Exists (λ s, s = [] ∨ [] ∈ s) recommendations →
  export_loop recommendations stdout = Err IndexError.
Proof.
  intros H. revert stdout. induction H as [s rest Hs|s rest _ IH];
    intros stdout; simpl.
  - by rewrite (result_data_of_fail s Hs).
  - destruct (result_data_of s) as [row|e] eqn:Hrow; simpl; [apply IH|].
    by apply result_data_of_Err in Hrow as ->.
Qed.

(** X14.  The exporter raises (an IndexError) exactly when some slot of
    the batch is empty or holds an empty row; the incomplete indexes it
    is given play no role. *)
Theorem exporter_fails_iff (data : list slot * list nat) :
  content_filter_result_to_useful_SQL_dataset data = Err IndexError
  ↔ Exists (λ s, s = [] ∨ [] ∈ s) data.1.
Proof.
  destruct data as [slots inc].
  unfold content_filter_result_to_useful_SQL_dataset. cbn [fst]. split.
  - intros Hrun.
    destruct (decide (Exists (λ s, s = [] ∨ [] ∈ s) slots)) as [|Hno];
      [done|].
    apply not_Exists_Forall in Hno; [|apply _].
    rewrite export_loop_Ok in Hrun; [done|].
    eapply Forall_impl; [apply Hno|]. simpl. intros s Hs.
    split; [by intros ->; apply Hs; left|by intros ?; apply Hs; right].
  - intros H. by rewrite (export_loop_fail slots [] H).
Qed.

(** ** The script's pipeline *)

(** X15.  Lines 161 to 164 as a whole: for every query result whose rows
    have the fields 1 and 2 (the empty result included), and whatever
    the random choices, grouping, recommending and exporting run through
    without an exception; every slot that was printed has exactly four
    rows, all of them rows of the query result; and the value bound to
    [dataset] is [None]. *)
Theorem script_pipeline (products : list record) (rs : list nat) :
  (∀ r, r ∈ products → valid_index r 1 ∧ valid_index r 2) →
  ∃ slots rs',
    script_dataset products rs = Ok ((PyNone, slots), rs')
    ∧ Forall (λ s, length s = 4) slots
    ∧ Forall (Forall (λ r, r ∈ products)) slots.
Proof.
  intros Hfields. destruct (decide (products = [])) as [->|Hne].
  { exists [], rs. split_and!; [done|constructor|constructor]. }
  destruct (group_total products script_index_list) as [t Ht]; [done| |].
  { intros r i Hr Hi. destruct (Hfields r Hr).
    apply elem_of_cons in Hi as [->|Hi]; [done|].
    by apply list_elem_of_singleton in Hi as ->. }
  apply group_inv in Ht as Hinv. destruct Hinv as [Hperm Hleaves].
  apply group_unfold in Ht as Hshape.
  destruct Hshape as (d & items & _ & -> & _).
  inversion_clear Hleaves as [|? Hitems].
  destruct (node_spec items products 0 default_recommendation_amount rs)
    as (slots & inc & rs' & Hrun & _ & Hrows & Hinc & Hbatch);
    [|done|by left|].
  { eapply Forall_impl; [apply Hitems|]. intros kv. apply default_spec_holds. }
  rewrite Hinc in Hrun, Hbatch by done.
  destruct (Hbatch eq_refl) as (_ & _ & Hslots & Hfull).
  assert (Forall (Forall (λ r, r ∈ products)) slots) as Hin.
  { eapply Forall_impl; [apply Hrows|]. intros s Hs.
    eapply Forall_impl; [apply Hs|]. intros r [Hr|[_ Hr]]; [|done].
    by rewrite <-Hperm. }
  exists slots, rs'. split_and!; [|apply Forall_lookup|done].
  - unfold script_dataset. rewrite Ht, Hrun.
    unfold content_filter_result_to_useful_SQL_dataset. cbn [fst].
    rewrite export_loop_Ok; [done|].
    apply Forall_forall. intros s Hs. split.
    + by apply (proj1 (Forall_forall _ _) Hslots s Hs).
    + intros Hempty.
      apply (proj1 (Forall_forall _ _) Hin s) in Hs.
      apply (proj1 (Forall_forall _ _) Hs), Hfields in Hempty as [Hv _].
      unfold valid_index in Hv. simpl in Hv. lia.
  - intros i s Hs. apply (Hfull i s Hs). by intros ?%elem_of_nil.
Qed.

Lemma script_pipeline_witness :
  ∃ slots rs',
    script_dataset catalogue [3; 1; 0; 2; 5; 7] = Ok ((PyNone, slots), rs')
    ∧ Forall (λ s, length s = 4) slots
    ∧ Forall (Forall (λ r, r ∈ catalogue)) slots.
Proof.
  apply script_pipeline. intros r Hr.
  assert (Forall (λ r : record, length r = 3) catalogue) as Hlen
    by (repeat constructor).
  unfold valid_index. rewrite (proj1 (Forall_forall _ _) Hlen r Hr).
  simpl. lia.
Defined.

Lemma exporter_fails_iff_witness :
  content_filter_result_to_useful_SQL_dataset ([take 4 catalogue; []], [])
  = Err IndexError.
Proof.
  apply exporter_fails_iff. apply Exists_cons_tl, Exists_cons_hd. by left.
Defined.
